(** * Arithmetic quiz core: expression evaluator, problem generator, rating

    A shallow embedding of [src/utils/mathUtils.ts].

    JavaScript numbers are modelled by [number]: finite values are exact
    rationals (binary64 rounding and overflow are not modelled), and the
    IEEE special values [Infinity], [-Infinity] and [NaN] behave as in
    IEEE 754.  Zero carries no sign.  Reading an array out of range gives
    [undefined] in the source; every such read is at once used in
    arithmetic or in a comparison, where [undefined] acts as [NaN], so the
    model reads [NaN] there.  The rating calculator is also given on
    binary64 floats ([Binary64]). *)

From Stdlib Require Import Floats.
From Stdlib Require Import QArith Qround Qabs Lqa ZArith Lia.
From stdpp Require Import gmap strings list pretty.

Local Open Scope Q_scope.

(** ** Numbers *)

Module Num.

Inductive number : Type :=
| Fin (q : Q)
| PInf
| NInf
| NaN.

Definition of_Z (z : Z) : number := Fin (inject_Z z).

(** Sign of a finite value: [Gt] positive, [Eq] zero, [Lt] negative. *)
Definition sgn (q : Q) : comparison := (q ?= 0)%Q.

(** The infinity of a given sign; a zero sign gives [NaN]. *)
Definition inf_of (c : comparison) : number :=
  match c with
  | Gt => PInf
  | Lt => NInf
  | Eq => NaN
  end.

Definition flip (c : comparison) : comparison := CompOpp c.

Definition add (a b : number) : number :=
  match a, b with
  | NaN, _ | _, NaN => NaN
  | Fin x, Fin y => Fin (Qred (x + y))
  | PInf, NInf | NInf, PInf => NaN
  | PInf, _ | _, PInf => PInf
  | NInf, _ | _, NInf => NInf
  end.

Definition sub (a b : number) : number :=
  match a, b with
  | NaN, _ | _, NaN => NaN
  | Fin x, Fin y => Fin (Qred (x - y))
  | PInf, PInf | NInf, NInf => NaN
  | PInf, _ | _, NInf => PInf
  | NInf, _ | _, PInf => NInf
  end.

Definition mul (a b : number) : number :=
  match a, b with
  | NaN, _ | _, NaN => NaN
  | Fin x, Fin y => Fin (Qred (x * y))
  | Fin x, PInf | PInf, Fin x => inf_of (sgn x)
  | Fin x, NInf | NInf, Fin x => inf_of (flip (sgn x))
  | PInf, PInf | NInf, NInf => PInf
  | PInf, NInf | NInf, PInf => NInf
  end.

(** Division; a finite zero divisor counts as [+0]. *)
Definition div (a b : number) : number :=
  match a, b with
  | NaN, _ | _, NaN => NaN
  | Fin x, Fin y => if Qeq_bool y 0 then inf_of (sgn x) else Fin (Qred (x / y))
  | Fin _, PInf | Fin _, NInf => Fin 0
  | PInf, Fin y => if Qle_bool 0 y then PInf else NInf
  | NInf, Fin y => if Qle_bool 0 y then NInf else PInf
  | _, _ => NaN
  end.

(** [a < b]; false as soon as one side is [NaN]. *)
Definition ltb (a b : number) : bool :=
  match a, b with
  | NaN, _ | _, NaN => false
  | Fin x, Fin y => negb (Qle_bool y x)
  | NInf, NInf | PInf, _ => false
  | NInf, _ => true
  | Fin _, PInf => true
  | Fin _, NInf => false
  end.

(** [a >= b]. *)
Definition geb (a b : number) : bool :=
  match a, b with
  | NaN, _ | _, NaN => false
  | Fin x, Fin y => Qle_bool y x
  | PInf, _ | _, NInf => true
  | NInf, _ => false
  | Fin _, PInf => false
  end.

(** [a === b] on numbers. *)
Definition eqb (a b : number) : bool :=
  match a, b with
  | Fin x, Fin y => Qeq_bool x y
  | PInf, PInf | NInf, NInf => true
  | _, _ => false
  end.

(** [a !== b]. *)
Definition neqb (a b : number) : bool := negb (eqb a b).

(** [Math.floor]. *)
Definition floor (a : number) : number :=
  match a with
  | Fin q => of_Z (Qfloor q)
  | _ => a
  end.

(** [Math.round]: the nearest integer, ties towards [+Infinity]. *)
Definition round (a : number) : number :=
  match a with
  | Fin q => of_Z (Qfloor (q + (1 # 2)))
  | _ => a
  end.

(** [Number.isInteger]. *)
Definition isInteger (a : number) : bool :=
  match a with
  | Fin q => Qeq_bool (inject_Z (Qfloor q)) q
  | _ => false
  end.

Definition isFinite (a : number) : bool :=
  match a with
  | Fin _ => true
  | _ => false
  end.

End Num.

Export Num.

Declare Scope num_scope.
Delimit Scope num_scope with num.
Bind Scope num_scope with number.
Infix "+" := Num.add : num_scope.
Infix "-" := Num.sub : num_scope.
Infix "*" := Num.mul : num_scope.
Infix "/" := Num.div : num_scope.
Infix "<?" := Num.ltb : num_scope.
Infix ">=?" := Num.geb (at level 70) : num_scope.
Infix "===" := Num.eqb (at level 70) : num_scope.
Infix "!==" := Num.neqb (at level 70) : num_scope.

(** ** Operators and arrays *)

(** Modelled from the spec: the declaration of [Operator] in [src/types] is
    missing.  Its four values are the cases of [getOperatorSymbol]
    (lines 10-17). *)
Inductive Operator : Type :=
| addition
| subtraction
| multiplication
| division.

#[global] Instance Operator_eq_dec : EqDecision Operator.
Proof. solve_decision. Defined.

(** An operator slot of an array; [None] is [undefined]. *)
Abbreviation slot := (option Operator).

(** [numbers[i]] used as a number. *)
Definition read (l : list number) (i : nat) : number := default NaN (l !! i).

(** [l.splice(start, deleteCount, ...items)], the array after the call. *)
Definition splice {A} (l : list A) (start deleteCount : nat) (items : list A) : list A :=
  take start l ++ items ++ drop (start + deleteCount) l.

Definition getOperatorSymbol (op : Operator) : string :=
  match op with
  | addition => "+"
  | subtraction => "-"
  | multiplication => "×"
  | division => "÷"
  end.

(** ** Expression evaluator ([evaluateExpressionExtended]) *)

(** The test of line 31. *)
Definition is_md (op : Operator) : bool :=
  match op with
  | multiplication | division => true
  | _ => false
  end.

(** The value computed at lines 35-37 for a multiplication or division
    slot. *)
Definition md_reduce (op : Operator) (n1 n2 : number) : number :=
  match op with
  | multiplication => (n1 * n2)%num
  | _ => if (n2 !== of_Z 0)%num then (n1 / n2)%num else of_Z 0
  end.

(** State of the first loop: the index [i], [currentNumbers] and
    [currentOps]. *)
Record md_state : Type := MdState {
  md_i : nat;
  md_numbers : list number;
  md_ops : list slot
}.

(** One iteration of the first loop (lines 30-43); [None] when the loop
    condition [i < currentOps.length] fails. *)
Definition md_step (st : md_state) : option md_state :=
  let i := md_i st in
  if bool_decide (i < length (md_ops st))%nat then
    match md_ops st !! i with
    | Some (Some op) =>
        if is_md op then
          let n1 := read (md_numbers st) i in
          let n2 := read (md_numbers st) (i + 1) in
          let res := md_reduce op n1 n2 in
          Some (MdState i (splice (md_numbers st) i 2 [res]) (splice (md_ops st) i 1 []))
        else Some (MdState (i + 1) (md_numbers st) (md_ops st))
    | _ => Some (MdState (i + 1) (md_numbers st) (md_ops st))
    end
  else None.

(** The first loop, run for at most [fuel] iterations. *)
Fixpoint md_loop (fuel : nat) (st : md_state) : md_state :=
  match fuel with
  | O => st
  | S fuel' =>
      match md_step st with
      | Some st' => md_loop fuel' st'
      | None => st
      end
  end.

(** Pass 1.  Every iteration shortens [currentOps] or advances [i], so
    [length operators] iterations are enough ([md_pass_exits]). *)
Definition md_pass (numbers : list number) (operators : list slot) : md_state :=
  md_loop (length operators) (MdState 0 numbers operators).

(** The update of [result] in the body of the second loop (lines 53-57). *)
Definition as_apply (op : slot) (result n2 : number) : number :=
  match op with
  | Some addition => (result + n2)%num
  | Some subtraction => (result - n2)%num
  | _ => result
  end.

(** The second loop (lines 50-62), over the operators from index [i] on. *)
Fixpoint as_loop (ops : list slot) (i : nat) (nums : list number)
    (result : number) (hasNeg : bool) : number * bool :=
  match ops with
  | [] => (result, hasNeg)
  | op :: ops' =>
      let n2 := read nums (i + 1) in
      let result := as_apply op result n2 in
      let hasNeg := if (result <? of_Z 0)%num then true else hasNeg in
      as_loop ops' (i + 1) nums result hasNeg
  end.

(** Lines 25-62: both passes, before the final rounding. *)
Definition evaluatePasses (numbers : list number) (operators : list slot) : number * bool :=
  let st := md_pass numbers operators in
  let result := read (md_numbers st) 0 in
  let hasNeg := if (result <? of_Z 0)%num then true else false in
  as_loop (md_ops st) 0 (md_numbers st) result hasNeg.

Record Evaluation : Type := MkEvaluation {
  result : number;
  hasNegativeIntermediate : bool
}.

(** [Math.round(x * 100) / 100]. *)
Definition round2 (x : number) : number :=
  (Num.round (x * of_Z 100) / of_Z 100)%num.

Definition evaluateExpressionExtended (numbers : list number) (operators : list slot) : Evaluation :=
  let '(r, hasNeg) := evaluatePasses numbers operators in
  {| result := round2 r; hasNegativeIntermediate := hasNeg |}.

(** ** Data model *)

(** Modelled from the spec: the declaration of [DifficultyLevel] in
    [src/types] is missing.  Line 4 and section 3 give its four values. *)
Inductive DifficultyLevel : Type :=
| easy
| medium
| hard
| custom.

(** Modelled from the spec: the declaration of [QuizConfig] in [src/types]
    is missing.  The fields are those that [mathUtils.ts] reads; following
    section 3, the operand bounds are integers, the operand count and the
    quantity are natural numbers. *)
Record QuizConfig : Type := MkQuizConfig {
  min : Z;
  max : Z;
  operandCount : nat;
  operators : list Operator;
  mixedOperations : bool;
  allowNegative : bool;
  integerDivisionOnly : bool;
  quantity : nat
}.

(** Modelled from the spec: the declaration of [MathProblem] in
    [src/types] is missing.  The fields are those of the object literals of
    lines 131-138 and 141; [isCorrect] is [null] ([None]) until the quiz
    flow sets it. *)
Record MathProblem : Type := MkMathProblem {
  id : string;
  expression : string;
  correctAnswer : number;
  userAnswer : string;
  isCorrect : option bool;
  timestamp : Z
}.

Record Preset : Type := MkPreset {
  preset_min : Z;
  preset_max : Z;
  preset_operandCount : nat
}.

(** The object literal of lines 4-8, as a map from its keys. *)
Definition DIFFICULTY_PRESETS : gmap string Preset :=
  {[ "easy" := MkPreset 1 10 2;
     "medium" := MkPreset 10 50 2;
     "hard" := MkPreset 10 100 3 ]}.

Definition level_key (d : DifficultyLevel) : string :=
  match d with
  | easy => "easy"
  | medium => "medium"
  | hard => "hard"
  | custom => "custom"
  end.

(** ** The environment of the generator *)

(** What the generator takes from its environment.  [World] is the state
    of the random source and of the clock.  [Math_random] is one call of
    [Math.random()]; [sort_random l] is [[...l].sort(() => Math.random() - 0.5)],
    whose draws and result are left to the engine; [Date_now] is
    [Date.now()].  [toString36 r] is [r.toString(36)], and
    [fractionToString q] is the decimal text of a finite number that is
    not an integer.  A draw of [Math.random()] lies in [0, 1); no property
    below depends on it. *)
Class Runtime (World : Type) : Type := {
  Math_random : World -> Q * World;
  sort_random : list Operator -> World -> list Operator * World;
  Date_now : World -> Z * World;
  toString36 : Q -> string;
  fractionToString : Q -> string
}.

(** State passing over [World]. *)
Definition M (World A : Type) : Type := World -> A * World.

Definition ret {World A} (a : A) : M World A := fun w => (a, w).

Definition bind {World A B} (m : M World A) (k : A -> M World B) : M World B :=
  fun w => let (a, w') := m w in k a w'.

Notation "'let*' x ':=' m 'in' k" := (bind m (fun x => k))
  (at level 10, x pattern, m at level 100, k at level 200).

(** [String(n)] for a number [n]. *)
Definition Number_toString `{Runtime World} (n : number) : string :=
  match n with
  | Fin q => if Num.isInteger n then pretty (Qfloor q) else fractionToString q
  | PInf => "Infinity"
  | NInf => "-Infinity"
  | NaN => "NaN"
  end.

(** [l[k]] for an index computed as a number. *)
Definition index {A} (l : list A) (k : Z) : option A :=
  if (k <? 0)%Z then None else l !! Z.to_nat k.

(** [l.pop()] on a non-empty array: the array left, and the element. *)
Definition pop {A} (l : list A) : option (list A * A) :=
  match last l with
  | Some x => Some (removelast l, x)
  | None => None
  end.

(** Text of an operator slot inside a template literal. *)
Definition slotSymbol (o : slot) : string :=
  match o with
  | Some op => getOperatorSymbol op
  | None => "undefined"
  end.

(** The loop of lines 124-129. *)
Fixpoint render_loop `{Runtime World} (rest : list number) (i : nat) (ops : list slot)
    (expression : string) : string :=
  match rest with
  | [] => expression
  | n :: rest' =>
      let expression := expression +:+ Number_toString n in
      let expression :=
        if bool_decide (i < length ops)%nat
        then expression +:+ " " +:+ slotSymbol (mjoin (ops !! i)) +:+ " "
        else expression in
      render_loop rest' (i + 1) ops expression
  end.

Definition render `{Runtime World} (numbers : list number) (ops : list slot) : string :=
  render_loop numbers 0 ops "".

Section Generator.
Context `{RT : Runtime World}.
Variable config : QuizConfig.

(** [Math.floor(Math.random() * n)]. *)
Definition randomBelow (n : number) : M World number :=
  let* r := Math_random in
  ret (Num.floor (Fin r * n)%num).

(** [Math.floor(Math.random() * n)] as an array index. *)
Definition as_index (k : number) : Z :=
  match k with
  | Fin q => Qfloor q
  | _ => (-1)%Z
  end.

(** [selectedOps[Math.floor(Math.random() * selectedOps.length)]]. *)
Definition randomOperator : M World slot :=
  let* k := randomBelow (of_Z (Z.of_nat (length (operators config)))) in
  ret (index (operators config) (as_index k)).

(** Lines 79-81, with [remaining] iterations to go. *)
Fixpoint sampleNumbers (remaining : nat) (numbers : list number) : M World (list number) :=
  match remaining with
  | O => ret numbers
  | S remaining' =>
      let* k := randomBelow (of_Z (max config - min config + 1)) in
      sampleNumbers remaining' (numbers ++ [(k + of_Z (min config))%num])
  end.

(** Lines 88-95, with [remaining] iterations to go. *)
Fixpoint chooseOps (remaining : nat) (baseOp : slot) (mixedPool : list Operator)
    (ops : list slot) : M World (list slot) :=
  match remaining with
  | O => ret ops
  | S remaining' =>
      if mixedOperations config then
        match pop mixedPool with
        | Some (mixedPool', nextOp) =>
            chooseOps remaining' baseOp mixedPool' (ops ++ [Some nextOp])
        | None =>
            let* nextOp := randomOperator in
            chooseOps remaining' baseOp mixedPool (ops ++ [nextOp])
        end
      else chooseOps remaining' baseOp mixedPool (ops ++ [baseOp])
  end.

(** Lines 98-104.  The test asks for two operands, so both indices written
    are in range. *)
Definition swapOperands (numbers : list number) (ops : list slot) : list number :=
  if negb (allowNegative config) && bool_decide (operandCount config = 2%nat)
     && bool_decide (ops !! 0%nat = Some (Some subtraction))
  then
    if (read numbers 0 <? read numbers 1)%num then
      let temp := read numbers 0 in
      <[1%nat := temp]> (<[0%nat := read numbers 1]> numbers)
    else numbers
  else numbers.

(** The loop of lines 108-114, over the operators from index [i] on.  The
    arrays built at lines 74-95 have one operand more than operators, so
    the indices [i] and [i + 1] written here are in range, where the
    assignment of the source and the list update agree. *)
Fixpoint fixDivisions (rest : list slot) (i : nat) (numbers : list number)
    : M World (list number) :=
  match rest with
  | [] => ret numbers
  | op :: rest' =>
      if bool_decide (op = Some division) then
        let numbers :=
          if (read numbers (i + 1) === of_Z 0)%num
          then <[(i + 1)%nat := of_Z 1]> numbers else numbers in
        let* k := randomBelow (of_Z 10) in
        let multiplier := (k + of_Z 1)%num in
        fixDivisions rest' (i + 1) (<[i := (read numbers (i + 1) * multiplier)%num]> numbers)
      else fixDivisions rest' (i + 1) numbers
  end.

(** Lines 74-115: the operands and operators of one attempt. *)
Definition candidate : M World (list number * list slot) :=
  let count := operandCount config in
  let* numbers := sampleNumbers count [] in
  let* baseOp := randomOperator in
  let* mixedPool := sort_random (operators config) in
  let* ops := chooseOps (count - 1) baseOp mixedPool [] in
  let numbers := swapOperands numbers ops in
  let* numbers :=
    (if integerDivisionOnly config then fixDivisions ops 0 numbers else ret numbers) in
  ret (numbers, ops).

(** The two [continue] tests of lines 120-121. *)
Definition rejected (ev : Evaluation) : bool :=
  (negb (allowNegative config)
     && ((result ev <? of_Z 0)%num || hasNegativeIntermediate ev))
  || (integerDivisionOnly config && negb (Num.isInteger (result ev))).

(** The body of the [while] loop (lines 73-138): [None] when the attempt
    ends in [continue]. *)
Definition attempt : M World (option MathProblem) :=
  let* c := candidate in
  let ev := evaluateExpressionExtended c.1 c.2 in
  if rejected ev then ret None
  else
    let expression := render c.1 c.2 in
    let* r := Math_random in
    let* now := Date_now in
    ret (Some {| id := String.substring 2 9 (toString36 r);
                 expression := expression;
                 correctAnswer := result ev;
                 userAnswer := "";
                 isCorrect := None;
                 timestamp := now |}).

(** Line 141. *)
Definition fallbackProblem : M World MathProblem :=
  let* now := Date_now in
  ret {| id := "fallback"; expression := "1 + 1"; correctAnswer := of_Z 2;
         userAnswer := ""; isCorrect := None; timestamp := now |}.

(** The [while (attempts < 200)] loop with [remaining = 200 - attempts]. *)
Fixpoint attemptLoop (remaining : nat) : M World MathProblem :=
  match remaining with
  | O => fallbackProblem
  | S remaining' =>
      let* r := attempt in
      match r with
      | Some problem => ret problem
      | None => attemptLoop remaining'
      end
  end.

Definition generateSingleProblem : M World MathProblem := attemptLoop 200.

(** The first loop of [generateProblemSet] (lines 150-157), with
    [remaining = maxAttempts - attempts]. *)
Fixpoint collectUnique (remaining : nat) (problems : list MathProblem) (seen : gset string)
    : M World (list MathProblem) :=
  match remaining with
  | O => ret problems
  | S remaining' =>
      if bool_decide (length problems < quantity config)%nat then
        let* problem := generateSingleProblem in
        if bool_decide (expression problem ∈ seen)
        then collectUnique remaining' problems seen
        else collectUnique remaining' (problems ++ [problem]) ({[expression problem]} ∪ seen)
      else ret problems
  end.

(** The second loop (lines 159-161), run for at most [fuel] iterations. *)
Fixpoint fillUp (fuel : nat) (problems : list MathProblem) : M World (list MathProblem) :=
  match fuel with
  | O => ret problems
  | S fuel' =>
      if bool_decide (length problems < quantity config)%nat then
        let* problem := generateSingleProblem in
        fillUp fuel' (problems ++ [problem])
      else ret problems
  end.

(** Each iteration of the second loop adds one problem, so
    [quantity - problems.length] iterations are enough
    ([fillUp_exits]). *)
Definition generateProblemSet : M World (list MathProblem) :=
  let maxAttempts := (quantity config * 50)%nat in
  let* problems := collectUnique maxAttempts [] ∅ in
  fillUp (quantity config - length problems) problems.

End Generator.

(** ** Rating calculator ([calculateRating]) *)

Record Rating : Type := MkRating {
  grade : string;
  color : string
}.

Definition calculateRating (score total timeInSeconds : number) : Rating :=
  let accuracy := (score / total * of_Z 100)%num in
  let avgTime := (timeInSeconds / total)%num in
  if (accuracy === of_Z 100)%num then
    if (avgTime <? of_Z 4)%num then MkRating "SSS" "text-yellow-500"
    else if (avgTime <? of_Z 7)%num then MkRating "S" "text-orange-500"
    else MkRating "A+" "text-indigo-500"
  else if (accuracy >=? of_Z 90)%num then
    if (avgTime <? of_Z 8)%num then MkRating "A" "text-indigo-400"
    else MkRating "B+" "text-emerald-500"
  else if (accuracy >=? of_Z 80)%num then MkRating "B" "text-emerald-400"
  else if (accuracy >=? of_Z 60)%num then MkRating "C" "text-slate-400"
  else MkRating "D" "text-rose-400".

(** The same function on binary64 floats, the numbers of the source, with
    the operations of IEEE 754. *)
Module Binary64.

Definition calculateRating (score total timeInSeconds : float) : Rating :=
  let accuracy := (score / total * 100)%float in
  let avgTime := (timeInSeconds / total)%float in
  if (accuracy =? 100)%float then
    if (avgTime <? 4)%float then MkRating "SSS" "text-yellow-500"
    else if (avgTime <? 7)%float then MkRating "S" "text-orange-500"
    else MkRating "A+" "text-indigo-500"
  else if (90 <=? accuracy)%float then
    if (avgTime <? 8)%float then MkRating "A" "text-indigo-400"
    else MkRating "B+" "text-emerald-500"
  else if (80 <=? accuracy)%float then MkRating "B" "text-emerald-400"
  else if (60 <=? accuracy)%float then MkRating "C" "text-slate-400"
  else MkRating "D" "text-rose-400".

(** The decision table of section 4.4 as a relation between the accuracy,
    the average time and the grade, one line per row, each row applying
    when the rows above it do not; [x >= y] is [y <=? x]. *)
Definition gradeRows (accuracy avgTime : float) (g : string) : Prop :=
  ((accuracy =? 100)%float = true ->
     ((avgTime <? 4)%float = true -> g = "SSS")
     /\ ((avgTime <? 4)%float = false -> (avgTime <? 7)%float = true -> g = "S")
     /\ ((avgTime <? 4)%float = false -> (avgTime <? 7)%float = false -> g = "A+"))
  /\ ((accuracy =? 100)%float = false ->
      ((90 <=? accuracy)%float = true ->
         ((avgTime <? 8)%float = true -> g = "A")
         /\ ((avgTime <? 8)%float = false -> g = "B+"))
      /\ ((90 <=? accuracy)%float = false ->
          ((80 <=? accuracy)%float = true -> g = "B")
          /\ ((80 <=? accuracy)%float = false ->
              ((60 <=? accuracy)%float = true -> g = "C")
              /\ ((60 <=? accuracy)%float = false -> g = "D")))).

End Binary64.

(** [a >= b] on the rationals, decided. *)
Definition Qge_dec (a b : Q) : {b <= a} + {a < b} :=
  match Qlt_le_dec a b with
  | left H => right H
  | right H => left H
  end.

(** The decision table of the specification (section 4.4), read over the
    rationals row by row: the grade for an accuracy in percent and an
    average time per problem. *)
Definition gradeTable (accuracy avgTime : Q) : string :=
  if Qeq_dec accuracy 100 then
    if Qlt_le_dec avgTime 4 then "SSS"
    else if Qlt_le_dec avgTime 7 then "S"
    else "A+"
  else if Qge_dec accuracy 90 then
    if Qlt_le_dec avgTime 8 then "A" else "B+"
  else if Qge_dec accuracy 80 then "B"
  else if Qge_dec accuracy 60 then "C"
  else "D".

(** ** Reference evaluator *)

(** The reference evaluator of the specification (section 8): the
    operand/operator sequence is parsed with the standard precedence
    (multiplication and division bind tighter than addition and
    subtraction, all four associate to the left) into a syntax tree, and
    the tree is evaluated bottom-up. *)
Module Reference.

Inductive expr : Type :=
| Lit (n : number)
| BinOp (op : Operator) (l r : expr).

(** The four operations; a division by zero has the value zero
    (section 4.1). *)
Definition apply (op : Operator) (a b : number) : number :=
  match op with
  | addition => (a + b)%num
  | subtraction => (a - b)%num
  | multiplication => (a * b)%num
  | division => if (b === of_Z 0)%num then of_Z 0 else (a / b)%num
  end.

Fixpoint eval (e : expr) : number :=
  match e with
  | Lit n => n
  | BinOp op l r => apply op (eval l) (eval r)
  end.

(** The sum read so far, with the additive operator that follows it. *)
Definition close (sum : option (expr * Operator)) (term : expr) : expr :=
  match sum with
  | Some (s, op) => BinOp op s term
  | None => term
  end.

(** Operator-precedence parsing with the two levels: [term] is the
    product being read, [sum] what stands to its left. *)
Fixpoint parse (sum : option (expr * Operator)) (term : expr)
    (rest : list (Operator * number)) : expr :=
  match rest with
  | [] => close sum term
  | (op, n) :: rest' =>
      match op with
      | multiplication | division => parse sum (BinOp op term (Lit n)) rest'
      | addition | subtraction => parse (Some (close sum term, op)) (Lit n) rest'
      end
  end.

(** The tree of [n0 op1 n1 op2 n2 ...]. *)
Definition parse_sequence (numbers : list number) (operators : list Operator) : expr :=
  match numbers with
  | [] => Lit NaN
  | n0 :: ns => parse None (Lit n0) (zip operators ns)
  end.

Definition evaluate (numbers : list number) (operators : list Operator) : number :=
  eval (parse_sequence numbers operators).

End Reference.

(** ** Observations in which the properties are stated *)

(** The values [result] takes in pass 2: the value before the loop, then
    the value after each iteration. *)
Fixpoint as_trace (ops : list slot) (i : nat) (nums : list number) (result : number)
    : list number :=
  result ::
  match ops with
  | [] => []
  | op :: ops' => as_trace ops' (i + 1) nums (as_apply op result (read nums (i + 1)))
  end.

Definition runningValues (numbers : list number) (operators : list slot) : list number :=
  let st := md_pass numbers operators in
  as_trace (md_ops st) 0 (md_numbers st) (read (md_numbers st) 0).

Definition negative (v : number) : Prop := (v <? of_Z 0)%num = true.

(** The world after [n] attempts in a row that all end in [continue];
    [None] when one of them returns a problem. *)
Fixpoint rejectedRun `{Runtime World} (config : QuizConfig) (n : nat) (w : World) : option World :=
  match n with
  | O => Some w
  | S n' =>
      match attempt config w with
      | (None, w') => rejectedRun config n' w'
      | (Some _, _) => None
      end
  end.

(** The quotients computed at line 37 for the division slots during pass 1,
    in the order of their reduction, over at most [fuel] iterations. *)
Fixpoint md_quotients (fuel : nat) (st : md_state) : list number :=
  match fuel with
  | O => []
  | S fuel' =>
      match md_step st with
      | None => []
      | Some st' =>
          (if bool_decide (md_ops st !! md_i st = Some (Some division))
           then [md_reduce division (read (md_numbers st) (md_i st))
                   (read (md_numbers st) (md_i st + 1))]
           else [])
          ++ md_quotients fuel' st'
      end
  end.

Definition divisionQuotients (numbers : list number) (operators : list slot) : list number :=
  md_quotients (length operators) (MdState 0 numbers operators).

(** Two division slots next to each other. *)
Fixpoint adjacentDivisions (ops : list slot) : bool :=
  match ops with
  | [] => false
  | o :: rest =>
      match o, rest with
      | Some division, Some division :: _ => true
      | _, _ => adjacentDivisions rest
      end
  end.

Section Acceptance.
Context `{RT : Runtime World}.
Variable config : QuizConfig.

(** What lines 120-121 ask of a problem: it renders and evaluates an
    operand/operator sequence whose evaluation meets the constraints of the
    configuration. *)
Definition acceptable (problem : MathProblem) : Prop :=
  exists numbers ops,
    expression problem = render numbers ops
    /\ correctAnswer problem = result (evaluateExpressionExtended numbers ops)
    /\ (allowNegative config = false ->
        (correctAnswer problem >=? of_Z 0)%num = true
        /\ hasNegativeIntermediate (evaluateExpressionExtended numbers ops) = false)
    /\ (integerDivisionOnly config = true ->
        Num.isInteger (correctAnswer problem) = true).

End Acceptance.

(** ** Structural readings of the loops

    The loops over indices are read along the sequence of operands and
    operators; the lemmas below relate each reading to the loop it
    follows. *)

Definition slot_md (o : slot) : bool :=
  match o with
  | Some op => is_md op
  | None => false
  end.

(** Pass 1 read along the sequence: [cur] is the operand at the current
    index, [rest] the operators to its right, each with its right operand.
    The result is the value left at the current index and what remains to
    its right. *)
Fixpoint collapse (cur : number) (rest : list (slot * number)) : number * list (slot * number) :=
  match rest with
  | [] => (cur, [])
  | (o, n) :: rest' =>
      match o with
      | Some op =>
          if is_md op then collapse (md_reduce op cur n) rest'
          else let cr := collapse n rest' in (cur, (o, cr.1) :: cr.2)
      | None => let cr := collapse n rest' in (cur, (o, cr.1) :: cr.2)
      end
  end.

(** Pass 2 read along the sequence. *)
Fixpoint as_fold (rest : list (slot * number)) (result : number) (hasNeg : bool) : number * bool :=
  match rest with
  | [] => (result, hasNeg)
  | (o, n) :: rest' =>
      let result := as_apply o result n in
      as_fold rest' result (if (result <? of_Z 0)%num then true else hasNeg)
  end.

Definition lift (rest : list (Operator * number)) : list (slot * number) :=
  (fun p => (Some p.1, p.2)) <$> rest.

(** The value with which pass 2 continues once the current product [c] is
    complete. *)
Definition start (sum : option (Reference.expr * Operator)) (c : number) : number :=
  match sum with
  | Some (s, op) => as_apply (Some op) (Reference.eval s) c
  | None => c
  end.

Definition additive (sum : option (Reference.expr * Operator)) : Prop :=
  match sum with
  | Some (_, op) => is_md op = false
  | None => True
  end.

(** The same quotients read along the sequence, as in [collapse]. *)
Fixpoint quotients (cur : number) (rest : list (slot * number)) : list number :=
  match rest with
  | [] => []
  | (o, n) :: rest' =>
      match o with
      | Some op =>
          if is_md op then
            (if bool_decide (op = division) then [md_reduce op cur n] else [])
            ++ quotients (md_reduce op cur n) rest'
          else quotients n rest'
      | None => quotients n rest'
      end
  end.

Definition starts_with_division (ops : list slot) : bool :=
  match ops with
  | Some division :: _ => true
  | _ => false
  end.

(** The operand [cur] at the current index is an exact multiple of the
    right operand of a division slot that follows it at once. *)
Definition head_ok (cur : Z) (rest : list (slot * Z)) : Prop :=
  match rest with
  | (Some division, n) :: _ => n <> 0%Z /\ (n | cur)%Z
  | _ => True
  end.

(** Every operand to the right is such a multiple, and no division slot
    follows a division slot. *)
Fixpoint tail_ok (rest : list (slot * Z)) : Prop :=
  match rest with
  | [] => True
  | (o, n) :: rest' =>
      (o = Some division -> starts_with_division rest'.*1 = false)
      /\ head_ok n rest' /\ tail_ok rest'
  end.

Definition liftZ (rest : list (slot * Z)) : list (slot * number) :=
  (fun p => (p.1, of_Z p.2)) <$> rest.

Section FixChain.
Context `{RT : Runtime World}.

(** The integer [Math.floor(Math.random() * n)] for an integer [n]. *)
Definition drawBelow (n : Z) : M World Z :=
  let* r := Math_random in
  ret (Qfloor (Qred (r * inject_Z n))).

(** The loop of lines 108-114 read along the sequence: [cur] is the
    operand at the current index, [rest] the operators to its right with
    their right operands; the result is the operands from the current
    index on. *)
Fixpoint fixChain (cur : Z) (rest : list (slot * Z)) : M World (list Z) :=
  match rest with
  | [] => ret [cur]
  | (op, b) :: rest' =>
      if bool_decide (op = Some division) then
        let b' := if bool_decide (b = 0%Z) then 1%Z else b in
        let* k := drawBelow 10 in
        let* tl := fixChain b' rest' in
        ret ((b' * (k + 1))%Z :: tl)
      else
        let* tl := fixChain b rest' in
        ret (cur :: tl)
  end.

End FixChain.

(** ** A concrete environment *)

(** A runtime whose random source replays a list of draws (and gives 0
    once the list is used up), whose clock ticks once per reading, and
    whose [sort] is an insertion sort. *)
Module Replay.

Record World : Type := MkWorld {
  draws : list Q;
  clock : Z
}.

Definition random (w : World) : Q * World :=
  match draws w with
  | [] => (0, w)
  | r :: rest => (r, MkWorld rest (clock w))
  end.

Definition now (w : World) : Z * World :=
  (clock w, MkWorld (draws w) (clock w + 1)).

(** Insertion of [x] into [sorted] with the comparator
    [() => Math.random() - 0.5]. *)
Fixpoint insert_random (x : Operator) (sorted : list Operator) (w : World)
    : list Operator * World :=
  match sorted with
  | [] => ([x], w)
  | y :: rest =>
      let (r, w') := random w in
      if Qle_bool (r - (1 # 2)) 0 then (x :: sorted, w')
      else let (l, w'') := insert_random x rest w' in (y :: l, w'')
  end.

Fixpoint sort (l : list Operator) (w : World) : list Operator * World :=
  match l with
  | [] => ([], w)
  | x :: rest =>
      let (sorted, w') := sort rest w in
      insert_random x sorted w'
  end.

#[global] Instance runtime : Runtime World := {|
  Math_random := random;
  sort_random := sort;
  Date_now := now;
  toString36 := fun _ => "0.replayed00";
  fractionToString := fun q => pretty (Qnum q) +:+ "/" +:+ pretty (Zpos (Qden q))
|}.

End Replay.

(** Configurations and replayed draws for the samples below. *)
Module Samples.

(** Three operands between 1 and 10, division only, integer division
    required. *)
Definition divisionChain : QuizConfig :=
  {| min := 1; max := 10; operandCount := 3; operators := [division];
     mixedOperations := false; allowNegative := false;
     integerDivisionOnly := true; quantity := 1 |}.

(** Two operands between 1 and 10, division only, integer division
    required. *)
Definition singleDivision : QuizConfig :=
  {| min := 1; max := 10; operandCount := 2; operators := [division];
     mixedOperations := false; allowNegative := false;
     integerDivisionOnly := true; quantity := 3 |}.

(** Three operands all equal to 1, subtraction only, no negative value
    allowed: [1 - 1 - 1] is the only candidate. *)
Definition alwaysNegative : QuizConfig :=
  {| min := 1; max := 1; operandCount := 3; operators := [subtraction];
     mixedOperations := false; allowNegative := false;
     integerDivisionOnly := false; quantity := 2 |}.

(** Operands between 1 and 10, subtraction only, no negative value
    allowed, five problems. *)
Definition fewDifferences : QuizConfig :=
  {| min := 1; max := 10; operandCount := 2; operators := [subtraction];
     mixedOperations := false; allowNegative := false;
     integerDivisionOnly := false; quantity := 5 |}.

(** No operand at all. *)
Definition noOperand : QuizConfig :=
  {| min := 1; max := 10; operandCount := 0; operators := [addition];
     mixedOperations := false; allowNegative := false;
     integerDivisionOnly := false; quantity := 1 |}.

(** Draws for the operands 1, 7, 3, the operator, and the multipliers 1
    and 2. *)
Definition chainWorld : Replay.World :=
  Replay.MkWorld [0; 6 # 10; 2 # 10; 0; 0; 1 # 10] 1000.

(** Draws for the operands 4, 6, the operator, and the multiplier 3. *)
Definition singleWorld : Replay.World :=
  Replay.MkWorld [3 # 10; 5 # 10; 0; 2 # 10] 1000.

End Samples.

(** ** Further observations *)

(** The numerator of [round2 (Fin q)] over 100. *)
Definition hundredths (q : Q) : Z := Qfloor (Qred (q * 100) + (1 # 2)).

(** The eight ratings that lines 171-181 can return, best first. *)
Definition ratingLadder : list Rating :=
  [ MkRating "SSS" "text-yellow-500";
    MkRating "S" "text-orange-500";
    MkRating "A+" "text-indigo-500";
    MkRating "A" "text-indigo-400";
    MkRating "B+" "text-emerald-500";
    MkRating "B" "text-emerald-400";
    MkRating "C" "text-slate-400";
    MkRating "D" "text-rose-400" ].

(** The height of a grade on the ladder: 7 for "SSS" down to 0 for "D". *)
Definition gradeRank (g : string) : nat :=
  if decide (g = "SSS") then 7
  else if decide (g = "S") then 6
  else if decide (g = "A+") then 5
  else if decide (g = "A") then 4
  else if decide (g = "B+") then 3
  else if decide (g = "B") then 2
  else if decide (g = "C") then 1
  else 0.

(** [calculateRating] on finite numbers with a total that is not zero,
    read on the accuracy and the average time as rationals. *)
Definition ratingOf (accuracy avgTime : Q) : Rating :=
  if Qeq_bool accuracy 100 then
    if negb (Qle_bool 4 avgTime) then MkRating "SSS" "text-yellow-500"
    else if negb (Qle_bool 7 avgTime) then MkRating "S" "text-orange-500"
    else MkRating "A+" "text-indigo-500"
  else if Qle_bool 90 accuracy then
    if negb (Qle_bool 8 avgTime) then MkRating "A" "text-indigo-400"
    else MkRating "B+" "text-emerald-500"
  else if Qle_bool 80 accuracy then MkRating "B" "text-emerald-400"
  else if Qle_bool 60 accuracy then MkRating "C" "text-slate-400"
  else MkRating "D" "text-rose-400".

(** The engines give draws in [0, 1), and a [sort] whose result holds the
    elements it was given, whatever the comparator answers. *)
Definition lawful `{RT : Runtime World} : Prop :=
  (forall w, 0 <= (Math_random w).1 /\ (Math_random w).1 < 1)
  /\ (forall l w, (sort_random l w).1 ≡ₚ l).

(** Lines 84-95: the operators of one attempt. *)
Definition operatorStage `{RT : Runtime World} (config : QuizConfig) : M World (list slot) :=
  let* baseOp := randomOperator config in
  let* mixedPool := sort_random (operators config) in
  chooseOps config (operandCount config - 1) baseOp mixedPool [].

(** A runtime whose draws cycle through 0, 0.1, ..., 0.9, whose [sort]
    reverses the array, and whose clock is the number of draws made. *)
Module Cycle.

Definition World : Type := nat.

Definition random (w : World) : Q * World :=
  (Z.of_nat (w mod 10) # 10, S w).

Definition sort (l : list Operator) (w : World) : list Operator * World :=
  (reverse l, w).

Definition now (w : World) : Z * World := (Z.of_nat w, w).

Definition runtime : Runtime World := {|
  Math_random := random;
  sort_random := sort;
  Date_now := now;
  toString36 := fun _ => "0.cycle0000000";
  fractionToString := fun q => pretty (Qnum q) +:+ "/" +:+ pretty (Zpos (Qden q))
|}.

End Cycle.

(** The text that follows the first operand of an expression: for each
    operator its symbol between two spaces, then its right operand. *)
Fixpoint renderTail `{Runtime World} (rest : list (slot * number)) : string :=
  match rest with
  | [] => ""
  | (o, n) :: rest' =>
      " " +:+ slotSymbol o +:+ " " +:+ Number_toString n +:+ renderTail rest'
  end.

(** An operand within the bounds of the configuration. *)
Definition inRange (config : QuizConfig) (z : Z) : Prop :=
  (min config <= z <= max config)%Z.

(** A slot that holds one of the configured operators. *)
Definition configured (config : QuizConfig) (o : slot) : Prop :=
  exists op, o = Some op /\ op ∈ operators config.

(** Two more configurations for the samples. *)
Module Samples2.

(** Three operands, three operators, mixed. *)
Definition mixedThree : QuizConfig :=
  {| min := 1; max := 10; operandCount := 3;
     operators := [addition; multiplication; division];
     mixedOperations := true; allowNegative := false;
     integerDivisionOnly := false; quantity := 2 |}.

(** Negative values allowed, no integer requirement. *)
Definition unconstrained : QuizConfig :=
  {| min := 1; max := 10; operandCount := 3;
     operators := [subtraction; division];
     mixedOperations := true; allowNegative := true;
     integerDivisionOnly := false; quantity := 2 |}.

End Samples2.

(** * Properties *)

(** ** Sample evaluations *)

Example evaluate_6_times_3 :
  evaluateExpressionExtended [of_Z 6; of_Z 3] [Some multiplication]
  = {| result := of_Z 18; hasNegativeIntermediate := false |}.
Proof. reflexivity. Qed.

Example evaluate_2_minus_5 :
  evaluateExpressionExtended [of_Z 2; of_Z 5] [Some subtraction]
  = {| result := of_Z (-3); hasNegativeIntermediate := true |}.
Proof. reflexivity. Qed.

Example evaluate_1_div_3 :
  evaluateExpressionExtended [of_Z 1; of_Z 3] [Some division]
  = {| result := Fin (33 # 100); hasNegativeIntermediate := false |}.
Proof. reflexivity. Qed.

Example evaluate_mixed :
  evaluateExpressionExtended [of_Z 2; of_Z 3; of_Z 4; of_Z 8; of_Z 2]
    [Some addition; Some multiplication; Some subtraction; Some division]
  = {| result := of_Z 10; hasNegativeIntermediate := false |}.
Proof. reflexivity. Qed.

Example evaluate_short_numbers :
  evaluateExpressionExtended [of_Z 2] [Some addition; Some multiplication]
  = {| result := NaN; hasNegativeIntermediate := false |}.
Proof. reflexivity. Qed.

(** ** Arithmetic of [number] on integers and finite values *)

Lemma Qred_inject_Z (z : Z) : Qred (inject_Z z) = inject_Z z.
Proof.
  unfold Qred, inject_Z.
  generalize (Z.ggcd_gcd z 1) (Z.ggcd_correct_divisors z 1).
  destruct (Z.ggcd z 1) as (g, (n, d)). simpl.
  intros Hg [Hn Hd]. rewrite Z.gcd_1_r in Hg. subst g.
  replace n with z by lia. replace d with 1%Z by lia. reflexivity.
Qed.

Lemma Qred_integer (x : Q) (z : Z) : x == inject_Z z -> Qred x = inject_Z z.
Proof.
  intros E. rewrite (Qred_complete _ _ E). apply Qred_inject_Z.
Qed.

Lemma add_of_Z (a b : Z) : (of_Z a + of_Z b)%num = of_Z (a + b).
Proof. unfold of_Z; simpl. f_equal. apply Qred_integer. now rewrite inject_Z_plus. Qed.

Lemma sub_of_Z (a b : Z) : (of_Z a - of_Z b)%num = of_Z (a - b).
Proof.
  unfold of_Z; simpl. f_equal. apply Qred_integer.
  unfold Z.sub. rewrite inject_Z_plus, inject_Z_opp. reflexivity.
Qed.

Lemma mul_of_Z (a b : Z) : (of_Z a * of_Z b)%num = of_Z (a * b).
Proof. unfold of_Z; simpl. f_equal. apply Qred_integer. now rewrite inject_Z_mult. Qed.

Lemma inject_Z_eq0 (b : Z) : Qeq_bool (inject_Z b) 0 = bool_decide (b = 0%Z).
Proof.
  destruct (Qeq_bool (inject_Z b) 0) eqn:E.
  - apply Qeq_bool_iff in E. symmetry. apply bool_decide_eq_true.
    unfold Qeq in E; simpl in E. lia.
  - symmetry. apply bool_decide_eq_false. intros ->. discriminate E.
Qed.

Lemma div_of_Z (b m : Z) : b <> 0%Z -> (of_Z (b * m) / of_Z b)%num = of_Z m.
Proof.
  intros Hb. unfold of_Z; simpl. rewrite inject_Z_eq0.
  rewrite bool_decide_eq_false_2 by assumption.
  f_equal. apply Qred_integer. rewrite inject_Z_mult. field.
  intros E. apply Hb. unfold Qeq in E; simpl in E. lia.
Qed.

Lemma isInteger_of_Z (z : Z) : Num.isInteger (of_Z z) = true.
Proof.
  unfold of_Z, Num.isInteger. rewrite Qfloor_Z. now apply Qeq_bool_iff.
Qed.

(** [a >= 0] is the negation of [a < 0] on finite numbers (not on [NaN]). *)
Lemma geb_0_finite (a : number) :
  Num.isFinite a = true -> (a <? of_Z 0)%num = false -> (a >=? of_Z 0)%num = true.
Proof.
  destruct a; try discriminate. simpl. intros _ H.
  now apply negb_false_iff in H.
Qed.

Lemma finite_add a b : Num.isFinite a = true -> Num.isFinite b = true -> Num.isFinite (a + b)%num = true.
Proof. now destruct a, b. Qed.

Lemma finite_sub a b : Num.isFinite a = true -> Num.isFinite b = true -> Num.isFinite (a - b)%num = true.
Proof. now destruct a, b. Qed.

Lemma finite_mul a b : Num.isFinite a = true -> Num.isFinite b = true -> Num.isFinite (a * b)%num = true.
Proof. now destruct a, b. Qed.

Create HintDb finite discriminated.
#[local] Hint Resolve finite_add finite_sub finite_mul : finite.

Lemma finite_md_reduce op a b :
  Num.isFinite a = true -> Num.isFinite b = true -> Num.isFinite (md_reduce op a b) = true.
Proof.
  destruct a as [x| | |], b as [y| | |]; try discriminate. intros _ _.
  destruct op; simpl; try reflexivity;
    unfold Num.neqb; simpl; destruct (Qeq_bool y (inject_Z 0)) eqn:E; simpl; try reflexivity;
    change (inject_Z 0) with 0 in E; now rewrite E.
Qed.

Lemma finite_as_apply o a b :
  Num.isFinite a = true -> Num.isFinite b = true -> Num.isFinite (as_apply o a b) = true.
Proof.
  intros Ha Hb. destruct o as [[]|]; simpl; auto with finite.
Qed.

Lemma finite_round2 a : Num.isFinite a = true -> Num.isFinite (round2 a) = true.
Proof. destruct a; try discriminate. reflexivity. Qed.

(** ** Pass 1 and pass 2 on sequences of matching lengths *)

Lemma read_middle (pre : list number) (x : number) (post : list number) (i : nat) :
  i = length pre -> read (pre ++ x :: post) i = x.
Proof. intros ->. unfold read. now rewrite list_lookup_middle. Qed.

Lemma read_middle_next (pre : list number) (x y : number) (post : list number) (i : nat) :
  i = length pre -> read (pre ++ x :: y :: post) (i + 1) = y.
Proof.
  intros ->. unfold read. replace (pre ++ x :: y :: post) with ((pre ++ [x]) ++ y :: post).
  - rewrite list_lookup_middle; [reflexivity|]. rewrite length_app. simpl. lia.
  - now rewrite <- app_assoc.
Qed.

Lemma splice_middle {A} (pre del post items : list A) (i : nat) :
  i = length pre ->
  splice (pre ++ del ++ post) i (length del) items = pre ++ items ++ post.
Proof.
  intros ->. unfold splice. rewrite take_app_length.
  rewrite drop_app_add' by reflexivity. now rewrite drop_app_length.
Qed.

Lemma md_step_reduce (pre_n : list number) (pre : list slot) cur n tl op ops :
  length pre_n = length pre -> is_md op = true ->
  md_step (MdState (length pre) (pre_n ++ cur :: n :: tl) (pre ++ Some op :: ops))
  = Some (MdState (length pre) (pre_n ++ md_reduce op cur n :: tl) (pre ++ ops)).
Proof.
  intros Hl Hop. unfold md_step. cbn [md_i md_ops md_numbers].
  rewrite bool_decide_eq_true_2 by (rewrite length_app; simpl; lia).
  rewrite list_lookup_middle by reflexivity. rewrite Hop.
  rewrite read_middle, read_middle_next by congruence.
  rewrite (splice_middle pre_n [cur; n] tl) by congruence.
  rewrite (splice_middle pre [Some op] ops) by congruence.
  reflexivity.
Qed.

Lemma md_step_advance (nums : list number) (pre : list slot) o ops :
  slot_md o = false ->
  md_step (MdState (length pre) nums (pre ++ o :: ops))
  = Some (MdState (length (pre ++ [o])) nums ((pre ++ [o]) ++ ops)).
Proof.
  intros Ho. unfold md_step. cbn [md_i md_ops md_numbers].
  rewrite bool_decide_eq_true_2 by (rewrite length_app; simpl; lia).
  rewrite list_lookup_middle by reflexivity.
  rewrite length_app, <- app_assoc. simpl.
  destruct o as [op|]; [|reflexivity]. simpl in Ho. now rewrite Ho.
Qed.

Lemma md_step_exit (nums : list number) (ops : list slot) :
  md_step (MdState (length ops) nums ops) = None.
Proof.
  unfold md_step. cbn [md_i md_ops]. now rewrite bool_decide_eq_false_2 by lia.
Qed.

Lemma collapse_md op cur n rest :
  is_md op = true ->
  collapse cur ((Some op, n) :: rest) = collapse (md_reduce op cur n) rest.
Proof. intros H. simpl. now rewrite H. Qed.

Lemma collapse_keep o cur n rest :
  slot_md o = false ->
  collapse cur ((o, n) :: rest) = (cur, (o, (collapse n rest).1) :: (collapse n rest).2).
Proof. intros H. destruct o as [op|]; simpl in *; [now rewrite H | reflexivity]. Qed.

Lemma md_loop_collapse (rest : list (slot * number)) :
  forall fuel (pre_n : list number) (pre : list slot) cur,
    length pre_n = length pre -> (length rest <= fuel)%nat ->
    md_loop fuel (MdState (length pre) (pre_n ++ cur :: rest.*2) (pre ++ rest.*1))
    = MdState (length (pre ++ (collapse cur rest).2.*1))
        (pre_n ++ (collapse cur rest).1 :: (collapse cur rest).2.*2)
        (pre ++ (collapse cur rest).2.*1).
Proof.
  induction rest as [|[o n] rest IH]; intros fuel pre_n pre cur Hl Hf.
  - simpl. rewrite !app_nil_r. destruct fuel; [reflexivity|].
    simpl. now rewrite md_step_exit.
  - destruct fuel as [|fuel]; [simpl in Hf; lia|]. simpl in Hf.
    rewrite !fmap_cons. cbn [fst snd md_loop].
    destruct (slot_md o) eqn:Ho.
    + destruct o as [op|]; [|discriminate]. simpl in Ho.
      rewrite md_step_reduce by assumption.
      rewrite IH by (assumption || lia).
      now rewrite (collapse_md op cur n rest Ho).
    + rewrite md_step_advance by assumption.
      replace (pre_n ++ cur :: n :: rest.*2) with ((pre_n ++ [cur]) ++ n :: rest.*2)
        by now rewrite <- app_assoc.
      rewrite IH by (rewrite ?length_app; simpl; lia).
      rewrite (collapse_keep o cur n rest Ho).
      cbn [fst snd]. rewrite !fmap_cons. cbn [fst snd].
      rewrite <- !app_assoc. reflexivity.
Qed.

Lemma as_loop_fold (rest : list (slot * number)) :
  forall i (pre : list number) res neg,
    length pre = S i ->
    as_loop rest.*1 i (pre ++ rest.*2) res neg = as_fold rest res neg.
Proof.
  induction rest as [|[o n] rest IH]; intros i pre res neg Hl; [reflexivity|].
  cbn [fmap list_fmap as_loop as_fold]. simpl fst. simpl snd.
  rewrite read_middle by lia.
  replace (pre ++ n :: rest.*2) with ((pre ++ [n]) ++ rest.*2) by now rewrite <- app_assoc.
  apply IH. rewrite length_app. simpl. lia.
Qed.

(** The two passes on a sequence with one operator less than operands. *)
Lemma evaluatePasses_matched (n0 : number) (ns : list number) (ops : list slot) :
  length ns = length ops ->
  evaluatePasses (n0 :: ns) ops
  = let cr := collapse n0 (zip ops ns) in
    as_fold cr.2 cr.1 (if (cr.1 <? of_Z 0)%num then true else false).
Proof.
  intros Hl. unfold evaluatePasses, md_pass.
  pose proof (md_loop_collapse (zip ops ns) (length ops) [] [] n0 eq_refl) as H.
  rewrite fst_zip, snd_zip in H by lia.
  rewrite length_zip in H. simpl in H. rewrite H by lia. clear H.
  cbn [md_numbers md_ops]. cbv zeta.
  change (read ((collapse n0 (zip ops ns)).1 :: (collapse n0 (zip ops ns)).2.*2) 0)
    with (collapse n0 (zip ops ns)).1.
  apply (as_loop_fold _ 0 [_]). reflexivity.
Qed.

(** ** Pass 1 ends by its loop condition *)

Lemma length_splice_one {A} (l : list A) (i : nat) :
  (i < length l)%nat -> length (splice l i 1 []) = (length l - 1)%nat.
Proof.
  intros H. unfold splice. rewrite !length_app, length_take, length_drop. simpl. lia.
Qed.

Lemma md_step_measure (st st' : md_state) :
  md_step st = Some st' ->
  (length (md_ops st') - md_i st' < length (md_ops st) - md_i st)%nat.
Proof.
  unfold md_step. case_bool_decide as Hi; [|discriminate].
  destruct (md_ops st !! md_i st) as [[op|]|];
    [destruct (is_md op)|..]; intros [= <-]; cbn [md_i md_ops];
    rewrite ?length_splice_one by assumption; lia.
Qed.

Lemma md_loop_exits (fuel : nat) :
  forall st, (length (md_ops st) - md_i st <= fuel)%nat -> md_step (md_loop fuel st) = None.
Proof.
  induction fuel as [|fuel IH]; intros st Hm; simpl.
  - unfold md_step. now rewrite bool_decide_eq_false_2 by lia.
  - destruct (md_step st) as [st'|] eqn:E; [|assumption].
    apply IH. apply md_step_measure in E. lia.
Qed.

Lemma md_pass_exits (numbers : list number) (operators : list slot) :
  md_step (md_pass numbers operators) = None.
Proof. apply md_loop_exits. simpl. lia. Qed.

(** More fuel than [length operators] changes nothing. *)
Lemma md_loop_stable (extra fuel : nat) (st : md_state) :
  md_step (md_loop fuel st) = None -> md_loop (fuel + extra) st = md_loop fuel st.
Proof.
  revert st. induction fuel as [|fuel IH]; intros st H; simpl in *.
  - destruct extra; [reflexivity|]. simpl. now rewrite H.
  - destruct (md_step st) as [st'|]; [now apply IH | reflexivity].
Qed.

(** ** The running values of pass 2 *)

Lemma as_loop_flag (ops : list slot) :
  forall i nums res neg,
    (as_loop ops i nums res neg).2 = true
    <-> neg = true \/ Exists negative (tail (as_trace ops i nums res)).
Proof.
  induction ops as [|op ops IH]; intros i nums res neg; simpl.
  - split; [now left | intros [H|H]; [assumption | inversion H]].
  - rewrite IH. clear IH. unfold negative at 2.
    set (res' := as_apply op res (read nums (i + 1))).
    destruct ops as [|op' ops]; simpl;
      rewrite Exists_cons; destruct (res' <? of_Z 0)%num; intuition congruence.
Qed.

Lemma as_loop_last (ops : list slot) :
  forall i nums res neg,
    last (as_trace ops i nums res) = Some (as_loop ops i nums res neg).1.
Proof.
  induction ops as [|op ops IH]; intros i nums res neg; [reflexivity|].
  cbn [as_loop]. rewrite <- IH. cbn [as_trace].
  destruct ops; reflexivity.
Qed.

(** ** The evaluator against the reference evaluator *)

Lemma zip_lift (ops : list Operator) (ns : list number) :
  zip (Some <$> ops) ns = lift (zip ops ns).
Proof.
  revert ns. induction ops as [|op ops IH]; intros [|n ns]; try reflexivity.
  simpl. f_equal. apply IH.
Qed.

Lemma reference_apply_md (op : Operator) (a b : number) :
  is_md op = true -> Reference.apply op a b = md_reduce op a b.
Proof.
  destruct op; try discriminate; intros _; [reflexivity|].
  simpl. unfold Num.neqb. now destruct (b === of_Z 0)%num.
Qed.

Lemma reference_apply_as (op : Operator) (a b : number) :
  is_md op = false -> Reference.apply op a b = as_apply (Some op) a b.
Proof. destruct op; try discriminate; reflexivity. Qed.

Lemma eval_close sum term :
  additive sum -> Reference.eval (Reference.close sum term) = start sum (Reference.eval term).
Proof.
  destruct sum as [[s op]|]; [|reflexivity]. simpl. intros H.
  now rewrite reference_apply_as.
Qed.

Lemma as_fold_flag_irrelevant rest :
  forall res neg neg', (as_fold rest res neg).1 = (as_fold rest res neg').1.
Proof.
  induction rest as [|[o n] rest IH]; intros res neg neg'; [reflexivity|].
  simpl. apply IH.
Qed.

Lemma reference_parse_eval (rest : list (Operator * number)) :
  forall sum term neg,
    additive sum ->
    Reference.eval (Reference.parse sum term rest)
    = (as_fold (collapse (Reference.eval term) (lift rest)).2
         (start sum (collapse (Reference.eval term) (lift rest)).1) neg).1.
Proof.
  induction rest as [|[op n] rest IH]; intros sum term neg Hs.
  - simpl. now apply eval_close.
  - unfold lift. rewrite fmap_cons. fold (lift rest). cbn [fst snd].
    destruct (is_md op) eqn:Hop.
    + rewrite collapse_md by assumption.
      assert (Reference.parse sum term ((op, n) :: rest)
              = Reference.parse sum (Reference.BinOp op term (Reference.Lit n)) rest) as ->
        by (destruct op; try discriminate; reflexivity).
      rewrite (IH sum _ neg Hs). cbn [Reference.eval].
      now rewrite reference_apply_md.
    + rewrite collapse_keep by (simpl; assumption).
      cbn [fst snd as_fold].
      assert (Reference.parse sum term ((op, n) :: rest)
              = Reference.parse (Some (Reference.close sum term, op)) (Reference.Lit n) rest) as ->
        by (destruct op; try discriminate; reflexivity).
      rewrite (IH _ (Reference.Lit n) neg) by (simpl; assumption).
      cbn [Reference.eval start]. rewrite eval_close by assumption.
      apply as_fold_flag_irrelevant.
Qed.

(** C1.  For every operand list and operator list with one operator less
    than operands, the value computed by the two passes of
    [evaluateExpressionExtended] (multiply/divide reduction, then
    left-to-right add/subtract) is the value of the reference evaluator,
    which parses the same sequence with the standard precedence and
    evaluates the tree; the [result] returned is that value after the
    rounding to two decimals of line 65.  In particular the result for
    [6 × 3] is 18. *)
Theorem evaluator_matches_reference (numbers : list number) (operators : list Operator) :
  length numbers = S (length operators) ->
  (evaluatePasses numbers (Some <$> operators)).1 = Reference.evaluate numbers operators
  /\ result (evaluateExpressionExtended numbers (Some <$> operators))
     = round2 (Reference.evaluate numbers operators)
  /\ result (evaluateExpressionExtended [of_Z 6; of_Z 3] [Some multiplication]) = of_Z 18.
Proof.
  intros Hl.
  assert ((evaluatePasses numbers (Some <$> operators)).1
          = Reference.evaluate numbers operators) as E.
  { destruct numbers as [|n0 ns]; [discriminate|]. simpl in Hl.
    rewrite evaluatePasses_matched by (rewrite length_fmap; lia).
    cbv zeta. rewrite zip_lift.
    unfold Reference.evaluate, Reference.parse_sequence.
    symmetry. apply (reference_parse_eval (zip operators ns) None (Reference.Lit n0)).
    exact I. }
  split; [exact E|]. split; [|reflexivity].
  unfold evaluateExpressionExtended. rewrite <- E.
  now destruct (evaluatePasses numbers (Some <$> operators)).
Qed.

Lemma evaluator_matches_reference_witness :
  result (evaluateExpressionExtended [of_Z 2; of_Z 3; of_Z 4] (Some <$> [addition; multiplication]))
  = round2 (Reference.evaluate [of_Z 2; of_Z 3; of_Z 4] [addition; multiplication]).
Proof.
  apply (evaluator_matches_reference [of_Z 2; of_Z 3; of_Z 4] [addition; multiplication]).
  reflexivity.
Defined.

(** C6.  A division whose right operand is zero reduces to zero, whatever
    its left operand: in [md_reduce], in the iteration of pass 1 that
    reduces the slot, and in the result of a single division.  The
    evaluator has no error result: pass 1 always ends by its loop
    condition and everything else is a bounded loop over the arrays. *)
Theorem division_by_zero_is_zero :
  (forall n1 n2, (n2 === of_Z 0)%num = true -> md_reduce division n1 n2 = of_Z 0)
  /\ (forall st,
        md_ops st !! md_i st = Some (Some division) ->
        (read (md_numbers st) (md_i st + 1) === of_Z 0)%num = true ->
        md_step st = Some (MdState (md_i st)
                             (splice (md_numbers st) (md_i st) 2 [of_Z 0])
                             (splice (md_ops st) (md_i st) 1 [])))
  /\ (forall numbers operators, md_step (md_pass numbers operators) = None)
  /\ (forall n, evaluateExpressionExtended [n; of_Z 0] [Some division]
                = {| result := of_Z 0; hasNegativeIntermediate := false |}).
Proof.
  assert (forall n1 n2, (n2 === of_Z 0)%num = true -> md_reduce division n1 n2 = of_Z 0) as R.
  { intros n1 n2 H. unfold md_reduce, Num.neqb. now rewrite H. }
  split; [exact R|]. split; [|split].
  - intros st Hop Hz. unfold md_step.
    rewrite bool_decide_eq_true_2 by (apply lookup_lt_Some in Hop; exact Hop).
    rewrite Hop. cbn [is_md]. now rewrite R.
  - apply md_pass_exits.
  - intros n. reflexivity.
Qed.

Lemma division_by_zero_is_zero_witness :
  md_step (MdState 1 [of_Z 4; of_Z 5; of_Z 0] [Some addition; Some division])
  = Some (MdState 1 [of_Z 4; of_Z 0] [Some addition]).
Proof.
  apply (proj1 (proj2 division_by_zero_is_zero)
           (MdState 1 [of_Z 4; of_Z 5; of_Z 0] [Some addition; Some division]));
    reflexivity.
Defined.

(** C7.  [hasNegativeIntermediate] is true exactly when one of the running
    values of pass 2 is negative: the operand left at index 0 by pass 1, or
    the value of [result] after an iteration of the second loop.  The
    running values start with that operand and end with the value that is
    rounded into [result].  [2 - 5] gives -3 with the flag set, [6 × 3]
    leaves it unset. *)
Theorem negative_flag_iff_running_value (numbers : list number) (operators : list slot) :
  (hasNegativeIntermediate (evaluateExpressionExtended numbers operators) = true
   <-> Exists negative (runningValues numbers operators))
  /\ head (runningValues numbers operators)
     = Some (read (md_numbers (md_pass numbers operators)) 0)
  /\ (exists v, last (runningValues numbers operators) = Some v
                /\ result (evaluateExpressionExtended numbers operators) = round2 v)
  /\ evaluateExpressionExtended [of_Z 2; of_Z 5] [Some subtraction]
     = {| result := of_Z (-3); hasNegativeIntermediate := true |}
  /\ hasNegativeIntermediate (evaluateExpressionExtended [of_Z 6; of_Z 3] [Some multiplication])
     = false.
Proof.
  unfold runningValues, evaluateExpressionExtended, evaluatePasses.
  set (st := md_pass numbers operators).
  set (r0 := read (md_numbers st) 0).
  repeat split; try reflexivity.
  - destruct (as_loop _ _ _ _ _) as [r neg] eqn:E. cbn [hasNegativeIntermediate].
    intros H. change neg with (r, neg).2 in H. rewrite <- E in H.
    apply as_loop_flag in H. destruct H as [H|H].
    + destruct (md_ops st); simpl; apply Exists_cons; left;
        unfold negative; now destruct (r0 <? of_Z 0)%num.
    + destruct (md_ops st); simpl in *; apply Exists_cons; now right.
  - intros H.
    destruct (as_loop _ _ _ _ _) as [r neg] eqn:E. cbn [hasNegativeIntermediate].
    change neg with (r, neg).2. rewrite <- E. apply as_loop_flag.
    destruct (md_ops st) as [|op ops]; simpl in *;
      apply Exists_cons in H; destruct H as [H|H];
      try (left; unfold negative in H; now rewrite H); now right.
  - destruct (md_ops st); reflexivity.
  - eexists. split.
    + apply (as_loop_last _ _ _ _ (if (r0 <? of_Z 0)%num then true else false)).
    + now destruct (as_loop _ _ _ _ _).
Qed.

(** ** Rating *)

Lemma Qeq_bool_false_iff (x y : Q) : Qeq_bool x y = false <-> ~ x == y.
Proof.
  split.
  - intros H E. apply Qeq_bool_iff in E. congruence.
  - intros H. destruct (Qeq_bool x y) eqn:E; [|reflexivity].
    apply Qeq_bool_iff in E. contradiction.
Qed.

Lemma Qle_bool_false_iff (x y : Q) : Qle_bool x y = false <-> y < x.
Proof.
  split.
  - intros H. apply Qnot_le_lt. intros E. apply Qle_bool_iff in E. congruence.
  - intros H. destruct (Qle_bool x y) eqn:E; [|reflexivity].
    apply Qle_bool_iff in E. apply Qlt_not_le in H. contradiction.
Qed.

Ltac reflect_Q :=
  repeat match goal with
    | H : Qeq_bool _ _ = true |- _ => apply Qeq_bool_iff in H
    | H : Qeq_bool _ _ = false |- _ => apply Qeq_bool_false_iff in H
    | H : Qle_bool _ _ = true |- _ => apply Qle_bool_iff in H
    | H : Qle_bool _ _ = false |- _ => apply Qle_bool_false_iff in H
    end.

Lemma binary64_rating_rows (score total timeInSeconds : float) :
  Binary64.gradeRows (score / total * 100)%float (timeInSeconds / total)%float
    (grade (Binary64.calculateRating score total timeInSeconds)).
Proof.
  unfold Binary64.gradeRows, Binary64.calculateRating. cbv zeta.
  destruct (score / total * 100 =? 100)%float;
    destruct (90 <=? score / total * 100)%float;
    destruct (80 <=? score / total * 100)%float;
    destruct (60 <=? score / total * 100)%float;
    destruct (timeInSeconds / total <? 4)%float;
    destruct (timeInSeconds / total <? 7)%float;
    destruct (timeInSeconds / total <? 8)%float;
    cbn [grade]; repeat split; intros; try reflexivity; discriminate.
Qed.

(** C3.  For a positive total, [calculateRating] returns the grade of the
    decision table of section 4.4 for accuracy = score / total * 100 and
    average time = elapsed / total (this holds for every score and elapsed
    time, hence for the non-negative ones); the three sample ratings are as
    stated.  On binary64 floats the grade satisfies every row of the table
    for the accuracy and the average time computed in floating point, and
    the three samples give the same grades. *)
Theorem calculateRating_table :
  (forall score total elapsed : Q,
      0 < total ->
      grade (calculateRating (Fin score) (Fin total) (Fin elapsed))
      = gradeTable (score / total * 100) (elapsed / total))
  /\ grade (calculateRating (of_Z 10) (of_Z 10) (of_Z 30)) = "SSS"
  /\ grade (calculateRating (of_Z 9) (of_Z 10) (of_Z 80)) = "B+"
  /\ grade (calculateRating (of_Z 5) (of_Z 10) (of_Z 100)) = "D"
  /\ (forall score total elapsed : float,
        Binary64.gradeRows (score / total * 100)%float (elapsed / total)%float
          (grade (Binary64.calculateRating score total elapsed)))
  /\ grade (Binary64.calculateRating 10 10 30) = "SSS"
  /\ grade (Binary64.calculateRating 9 10 80) = "B+"
  /\ grade (Binary64.calculateRating 5 10 100) = "D".
Proof.
  split; [|do 3 (split; [reflexivity|]);
            split; [intros; apply binary64_rating_rows | repeat split; reflexivity]].
  intros score total elapsed Ht.
  unfold calculateRating, gradeTable, of_Z. cbv zeta. cbn [Num.div].
  assert (Qeq_bool total 0 = false) as ->
    by (apply Qeq_bool_false_iff; intros E; rewrite E in Ht; discriminate).
  cbn [Num.mul Num.eqb Num.geb Num.ltb].
  change (inject_Z 100) with 100.
  change (inject_Z 4) with 4; change (inject_Z 7) with 7; change (inject_Z 8) with 8.
  change (inject_Z 90) with 90; change (inject_Z 80) with 80; change (inject_Z 60) with 60.
  assert (Qred (Qred (score / total) * 100) == score / total * 100) as Ea
    by (now rewrite !Qred_correct).
  pose proof (Qred_correct (elapsed / total)) as Et.
  set (accuracy' := Qred (Qred (score / total) * 100)) in *.
  set (avgTime' := Qred (elapsed / total)) in *.
  set (accuracy := score / total * 100) in *.
  set (avgTime := elapsed / total) in *.
  clearbody accuracy' avgTime' accuracy avgTime.
  destruct (Qeq_bool accuracy' 100) eqn:B1;
    destruct (Qeq_dec accuracy 100) as [D1|D1]; reflect_Q;
    try (exfalso; rewrite Ea in B1; contradiction).
  - destruct (Qle_bool 4 avgTime') eqn:B2; destruct (Qlt_le_dec avgTime 4);
      destruct (Qle_bool 7 avgTime') eqn:B3; destruct (Qlt_le_dec avgTime 7);
      reflect_Q; simpl; try reflexivity; exfalso; lra.
  - destruct (Qle_bool 90 accuracy') eqn:B2; destruct (Qge_dec accuracy 90);
      destruct (Qle_bool 80 accuracy') eqn:B3; destruct (Qge_dec accuracy 80);
      destruct (Qle_bool 60 accuracy') eqn:B4; destruct (Qge_dec accuracy 60);
      destruct (Qle_bool 8 avgTime') eqn:B5; destruct (Qlt_le_dec avgTime 8);
      reflect_Q; simpl; try reflexivity; exfalso; lra.
Qed.

Lemma calculateRating_table_witness :
  grade (calculateRating (Fin 17) (Fin 20) (Fin 100)) = gradeTable (17 / 20 * 100) (100 / 20).
Proof.
  apply (proj1 calculateRating_table 17 20 100). reflexivity.
Defined.

Lemma binary64_div_zero_positive (s : float) :
  (0 <? s)%float = true -> (s / 0)%float = infinity.
Proof.
  intros H. apply Prim2SF_inj. rewrite div_spec.
  rewrite ltb_spec in H.
  change (Prim2SF 0) with (S754_zero false) in *.
  change (Prim2SF infinity) with (S754_infinity false).
  destruct (Prim2SF s) as [[]|[]| |[] m e]; simpl in *; try discriminate; reflexivity.
Qed.

Lemma binary64_div_zero_nonnegative (t : float) :
  (0 <=? t)%float = true -> (t / 0)%float = infinity \/ (t / 0)%float = nan.
Proof.
  intros H. rewrite leb_spec in H.
  change (Prim2SF 0) with (S754_zero false) in *.
  assert (Prim2SF (t / 0) = S754_infinity false \/ Prim2SF (t / 0) = S754_nan) as [E|E].
  { rewrite div_spec. change (Prim2SF 0) with (S754_zero false).
    destruct (Prim2SF t) as [[]|[]| |[] m e]; simpl in *; try discriminate; auto. }
  - left. apply Prim2SF_inj. now rewrite E.
  - right. apply Prim2SF_inj. now rewrite E.
Qed.

(** C10.  [calculateRating] is defined at [total = 0] as well.  With a zero
    score the accuracy is [NaN], every comparison fails and the grade is
    "D" whatever the time; with a positive score the accuracy is
    [Infinity], the average time is [Infinity] or [NaN] for a time that is
    not negative, and the grade is "B+".  This holds in the number model
    and on binary64 floats. *)
Theorem calculateRating_total_zero :
  (forall t, calculateRating (of_Z 0) (of_Z 0) t = MkRating "D" "text-rose-400")
  /\ (forall s t,
        (of_Z 0 <? s)%num = true -> (t >=? of_Z 0)%num = true ->
        calculateRating s (of_Z 0) t = MkRating "B+" "text-emerald-500")
  /\ (of_Z 0 / of_Z 0 * of_Z 100)%num = NaN
  /\ (forall s, (of_Z 0 <? s)%num = true -> (s / of_Z 0 * of_Z 100)%num = PInf)
  /\ (forall t : float, Binary64.calculateRating 0 0 t = MkRating "D" "text-rose-400")
  /\ (forall s t : float,
        (0 <? s)%float = true -> (0 <=? t)%float = true ->
        Binary64.calculateRating s 0 t = MkRating "B+" "text-emerald-500")
  /\ PrimFloat.is_nan (0 / 0 * 100)%float = true
  /\ (forall s : float, (0 <? s)%float = true -> (s / 0 * 100)%float = infinity).
Proof.
  assert (forall s, (of_Z 0 <? s)%num = true -> (s / of_Z 0 * of_Z 100)%num = PInf) as Hs.
  { intros [q| | |]; simpl; try discriminate; [|reflexivity].
    intros H. apply negb_true_iff in H. reflect_Q.
    unfold Num.sgn. destruct (q ?= 0) eqn:C; [| |reflexivity].
    - apply Qeq_alt in C. change (inject_Z 0) with 0 in H. lra.
    - apply Qlt_alt in C. change (inject_Z 0) with 0 in H. lra. }
  split; [intros t; reflexivity|]. split.
  { intros s t Hpos Ht. unfold calculateRating. rewrite (Hs s Hpos).
    cbn [Num.eqb Num.geb].
    assert (forall k, (t / of_Z 0 <? of_Z k)%num = false) as Hk;
      [|rewrite !Hk; reflexivity].
    intros k. destruct t as [q| | |]; simpl in *; try discriminate; try reflexivity.
    reflect_Q. unfold Num.sgn. destruct (q ?= 0) eqn:C; try reflexivity.
    apply Qlt_alt in C. change (inject_Z 0) with 0 in Ht. lra. }
  split; [reflexivity|]. split; [exact Hs|].
  split; [intros t; reflexivity|]. split.
  { intros s t Hpos Ht. unfold Binary64.calculateRating.
    rewrite (binary64_div_zero_positive s Hpos).
    destruct (binary64_div_zero_nonnegative t Ht) as [-> | ->]; reflexivity. }
  split; [reflexivity|].
  intros s Hpos. now rewrite (binary64_div_zero_positive s Hpos).
Qed.

Lemma calculateRating_total_zero_witness :
  calculateRating (of_Z 3) (of_Z 0) (of_Z 12) = MkRating "B+" "text-emerald-500".
Proof.
  apply (proj1 (proj2 calculateRating_total_zero) (of_Z 3) (of_Z 12)); reflexivity.
Defined.

(** C9.  The preset table has exactly the three entries easy, medium and
    hard, with the stated bounds and operand counts, and none for
    custom. *)
Theorem difficulty_presets_table :
  DIFFICULTY_PRESETS !! level_key easy = Some (MkPreset 1 10 2)
  /\ DIFFICULTY_PRESETS !! level_key medium = Some (MkPreset 10 50 2)
  /\ DIFFICULTY_PRESETS !! level_key hard = Some (MkPreset 10 100 3)
  /\ DIFFICULTY_PRESETS !! level_key custom = None
  /\ forall key, is_Some (DIFFICULTY_PRESETS !! key)
                 -> key = "easy" \/ key = "medium" \/ key = "hard".
Proof.
  repeat split; try reflexivity.
  intros key [p Hp]. unfold DIFFICULTY_PRESETS in Hp.
  destruct (decide (key = "easy")) as [|N1]; [now left|].
  destruct (decide (key = "medium")) as [|N2]; [now right; left|].
  destruct (decide (key = "hard")) as [|N3]; [now right; right|].
  rewrite !lookup_insert_ne in Hp by congruence.
  rewrite lookup_singleton_ne in Hp by congruence. discriminate.
Qed.

(** ** The generator *)

Section GeneratorProperties.
Context `{RT : Runtime World}.
Variable config : QuizConfig.

Lemma attemptLoop_outcome (n : nat) :
  forall w,
    (exists k w_k problem w',
        (k < n)%nat /\ rejectedRun config k w = Some w_k
        /\ attempt config w_k = (Some problem, w')
        /\ attemptLoop config n w = (problem, w'))
    \/ (exists w_n,
           rejectedRun config n w = Some w_n
           /\ attemptLoop config n w = fallbackProblem w_n).
Proof.
  induction n as [|n IH]; intros w.
  - right. exists w. split; reflexivity.
  - assert (attemptLoop config (S n) w
            = match attempt config w with
              | (Some problem, w1) => (problem, w1)
              | (None, w1) => attemptLoop config n w1
              end) as Eq.
    { cbn [attemptLoop]. unfold bind. now destruct (attempt config w) as [[?|] ?]. }
    rewrite Eq. cbn [rejectedRun].
    destruct (attempt config w) as [[problem|] w1] eqn:E.
    + left. exists 0%nat, w, problem, w1. repeat split; [lia | assumption].
    + destruct (IH w1) as [(k & w_k & problem & w' & Hk & Hr & Ha & Hl) | (w_n & Hr & Hl)].
      * left. exists (S k), w_k, problem, w'. repeat split; try assumption; [lia|].
        cbn [rejectedRun]. now rewrite E.
      * right. exists w_n. split; assumption.
Qed.

Lemma collectUnique_length (remaining : nat) :
  forall problems seen w,
    (length problems <= quantity config)%nat ->
    (length (collectUnique config remaining problems seen w).1 <= quantity config)%nat.
Proof.
  induction remaining as [|remaining IH]; intros problems seen w Hl; [assumption|].
  cbn [collectUnique]. case_bool_decide as Hlt; [|assumption].
  unfold bind. destruct (generateSingleProblem config w) as [problem w1].
  case_bool_decide; apply IH; [assumption|].
  rewrite length_app. simpl. lia.
Qed.

Lemma fillUp_length (fuel : nat) :
  forall problems w,
    (length problems <= quantity config)%nat ->
    (quantity config - length problems <= fuel)%nat ->
    length (fillUp config fuel problems w).1 = quantity config.
Proof.
  induction fuel as [|fuel IH]; intros problems w Hle Hf; [simpl; lia|].
  cbn [fillUp]. case_bool_decide as Hlt; [|simpl; lia].
  unfold bind. destruct (generateSingleProblem config w) as [problem w1].
  apply IH; rewrite length_app; simpl; lia.
Qed.

(** Once the second loop has ended by its condition, more iterations
    allowed change nothing. *)
Lemma fillUp_exits (fuel extra : nat) :
  forall problems w,
    (quantity config - length problems <= fuel)%nat ->
    fillUp config (fuel + extra) problems w = fillUp config fuel problems w.
Proof.
  induction fuel as [|fuel IH]; intros problems w Hf.
  - destruct extra; [reflexivity|]. cbn [Nat.add fillUp].
    now rewrite bool_decide_eq_false_2 by lia.
  - cbn [Nat.add fillUp]. case_bool_decide; [|reflexivity].
    unfold bind. destruct (generateSingleProblem config w) as [problem w1].
    apply IH. rewrite length_app. simpl. lia.
Qed.

(** A property of every problem [generateSingleProblem] can return holds
    of every problem of a generated set. *)
Lemma collectUnique_Forall (P : MathProblem -> Prop) :
  (forall w, P (generateSingleProblem config w).1) ->
  forall remaining problems seen w,
    Forall P problems -> Forall P (collectUnique config remaining problems seen w).1.
Proof.
  intros HP. induction remaining as [|remaining IH]; intros problems seen w Hall; [assumption|].
  cbn [collectUnique]. case_bool_decide; [|assumption].
  unfold bind. pose proof (HP w) as Hp.
  destruct (generateSingleProblem config w) as [problem w1].
  case_bool_decide; apply IH; [assumption|].
  apply Forall_app. split; [assumption|]. now constructor.
Qed.

Lemma fillUp_Forall (P : MathProblem -> Prop) :
  (forall w, P (generateSingleProblem config w).1) ->
  forall fuel problems w,
    Forall P problems -> Forall P (fillUp config fuel problems w).1.
Proof.
  intros HP. induction fuel as [|fuel IH]; intros problems w Hall; [assumption|].
  cbn [fillUp]. case_bool_decide; [|assumption].
  unfold bind. pose proof (HP w) as Hp.
  destruct (generateSingleProblem config w) as [problem w1].
  apply IH. apply Forall_app. split; [assumption|]. now constructor.
Qed.

Lemma generateProblemSet_Forall (P : MathProblem -> Prop) :
  (forall w, P (generateSingleProblem config w).1) ->
  forall w, Forall P (generateProblemSet config w).1.
Proof.
  intros HP w. unfold generateProblemSet, bind.
  pose proof (collectUnique_Forall P HP (quantity config * 50) [] ∅ w (Forall_nil_2 P)) as H.
  destruct (collectUnique config (quantity config * 50) [] ∅ w) as [problems w1].
  now apply fillUp_Forall.
Qed.

(** C2.  For every configuration and every state of the random source,
    [generateProblemSet] returns a list of exactly [quantity] problems.
    The first loop runs at most [quantity * 50] times; the second loop ends
    by its own condition, so the bound on its iterations in the model is
    never what stops it. *)
Theorem generateProblemSet_length (w : World) :
  length (generateProblemSet config w).1 = quantity config
  /\ forall extra problems w',
       fillUp config (quantity config - length problems + extra) problems w'
       = fillUp config (quantity config - length problems) problems w'.
Proof.
  split.
  - unfold generateProblemSet, bind.
    pose proof (collectUnique_length (quantity config * 50) [] ∅ w) as H.
    destruct (collectUnique config (quantity config * 50) [] ∅ w) as [problems w1].
    apply fillUp_length; [|lia]. apply H. simpl. lia.
  - intros extra problems w'. now apply fillUp_exits.
Qed.

(** C8.  [generateSingleProblem] always returns a problem.  Either one of
    the first 200 attempts is accepted, after only rejected ones, and its
    problem is returned; or 200 attempts in a row are rejected and the
    fallback is returned: expression "1 + 1", answer 2, an empty user
    answer and no correctness flag. *)
Theorem generateSingleProblem_total (w : World) :
  (exists k w_k problem w',
      (k < 200)%nat /\ rejectedRun config k w = Some w_k
      /\ attempt config w_k = (Some problem, w')
      /\ generateSingleProblem config w = (problem, w'))
  \/ (exists w_n,
         rejectedRun config 200 w = Some w_n
         /\ generateSingleProblem config w
            = ({| id := "fallback"; expression := "1 + 1"; correctAnswer := of_Z 2;
                  userAnswer := ""; isCorrect := None;
                  timestamp := (Date_now w_n).1 |}, (Date_now w_n).2)).
Proof.
  destruct (attemptLoop_outcome 200 w) as [H | (w_n & Hr & Hl)]; [now left|].
  right. exists w_n. split; [assumption|].
  unfold generateSingleProblem. rewrite Hl.
  unfold fallbackProblem, bind, ret. now destruct (Date_now w_n).
Qed.

End GeneratorProperties.

(** ** Division slots *)

Lemma md_quotients_structural (rest : list (slot * number)) :
  forall fuel (pre_n : list number) (pre : list slot) cur,
    length pre_n = length pre -> (length rest <= fuel)%nat ->
    md_quotients fuel (MdState (length pre) (pre_n ++ cur :: rest.*2) (pre ++ rest.*1))
    = quotients cur rest.
Proof.
  induction rest as [|[o n] rest IH]; intros fuel pre_n pre cur Hl Hf.
  - simpl. rewrite !app_nil_r. destruct fuel; [reflexivity|].
    simpl. now rewrite md_step_exit.
  - destruct fuel as [|fuel]; [simpl in Hf; lia|]. simpl in Hf.
    rewrite !fmap_cons. cbn [fst snd md_quotients md_i md_ops md_numbers].
    rewrite list_lookup_middle by reflexivity.
    destruct (slot_md o) eqn:Ho.
    + destruct o as [op|]; [|discriminate]. simpl in Ho.
      rewrite md_step_reduce by assumption.
      rewrite IH by (assumption || lia).
      rewrite read_middle, read_middle_next by congruence.
      cbn [quotients]. rewrite Ho. f_equal.
      destruct op; try discriminate.
      * rewrite bool_decide_eq_false_2 by congruence.
        now rewrite bool_decide_eq_false_2 by congruence.
      * rewrite bool_decide_eq_true_2 by reflexivity.
        now rewrite bool_decide_eq_true_2 by reflexivity.
    + rewrite md_step_advance by assumption.
      replace (pre_n ++ cur :: n :: rest.*2) with ((pre_n ++ [cur]) ++ n :: rest.*2)
        by now rewrite <- app_assoc.
      rewrite IH by (rewrite ?length_app; simpl; lia).
      rewrite bool_decide_eq_false_2
        by (intros [= ->]; discriminate Ho).
      destruct o as [op|]; simpl in *; [now rewrite Ho | reflexivity].
Qed.

Lemma divisionQuotients_matched (n0 : number) (ns : list number) (ops : list slot) :
  length ns = length ops ->
  divisionQuotients (n0 :: ns) ops = quotients n0 (zip ops ns).
Proof.
  intros Hl. unfold divisionQuotients.
  pose proof (md_quotients_structural (zip ops ns) (length ops) [] [] n0 eq_refl) as H.
  rewrite fst_zip, snd_zip in H by lia.
  rewrite length_zip in H. apply H. lia.
Qed.

Lemma md_reduce_division_exact (b m : Z) :
  b <> 0%Z -> md_reduce division (of_Z (b * m)) (of_Z b) = of_Z m.
Proof.
  intros Hb. unfold md_reduce, Num.neqb, Num.eqb, of_Z.
  change (inject_Z 0) with 0. rewrite inject_Z_eq0.
  rewrite bool_decide_eq_false_2 by assumption.
  now apply div_of_Z.
Qed.

Lemma head_ok_mul (cur n : Z) (rest : list (slot * Z)) :
  head_ok n rest -> head_ok (cur * n) rest.
Proof.
  destruct rest as [|[[[]|] b] rest]; simpl; try tauto.
  intros [Hb Hd]. split; [assumption|]. now apply Z.divide_mul_r.
Qed.

(** Along a sequence that satisfies [head_ok] and [tail_ok], every
    division quotient is an integer. *)
Lemma quotients_exact (rest : list (slot * Z)) :
  forall cur,
    head_ok cur rest -> tail_ok rest ->
    Forall (fun q => Num.isInteger q = true) (quotients (of_Z cur) (liftZ rest)).
Proof.
  induction rest as [|[o n] rest IH]; intros cur Hh Ht; [constructor|].
  unfold liftZ. rewrite fmap_cons. fold (liftZ rest). cbn [fst snd quotients].
  destruct Ht as (Hadj & Hn & Ht).
  destruct o as [[]|]; cbn [is_md]; try (now apply IH).
  - rewrite bool_decide_eq_false_2 by discriminate. cbn [app md_reduce].
    rewrite mul_of_Z. apply IH; [|assumption]. now apply head_ok_mul.
  - rewrite bool_decide_eq_true_2 by reflexivity.
    destruct Hh as [Hn0 [m ->]]. rewrite (Z.mul_comm m n).
    rewrite md_reduce_division_exact by assumption.
    cbn [app]. constructor; [apply isInteger_of_Z|].
    apply IH; [|assumption].
    specialize (Hadj eq_refl). destruct rest as [|[[[]|] b] rest]; simpl in *;
      try exact I; discriminate.
Qed.

(** ** The operands of a candidate *)

Lemma insert_middle {A} (pre : list A) (x y : A) (post : list A) (i : nat) :
  i = length pre -> <[i := y]> (pre ++ x :: post) = pre ++ y :: post.
Proof.
  intros ->. rewrite insert_app_r_alt by lia. now rewrite Nat.sub_diag.
Qed.

Lemma insert_middle_next {A} (pre : list A) (x x' y : A) (post : list A) (i : nat) :
  i = length pre -> <[(i + 1)%nat := y]> (pre ++ x :: x' :: post) = pre ++ x :: y :: post.
Proof.
  intros ->. rewrite insert_app_r_alt by lia.
  now replace (length pre + 1 - length pre)%nat with 1%nat by lia.
Qed.

Section Candidate.
Context `{RT : Runtime World}.
Variable config : QuizConfig.

Lemma randomBelow_of_Z (n : Z) (w : World) :
  randomBelow (of_Z n) w = (of_Z (drawBelow n w).1, (drawBelow n w).2).
Proof.
  unfold randomBelow, drawBelow, bind, ret. now destruct (Math_random w).
Qed.

Lemma sampleNumbers_integers (remaining : nat) :
  forall (zs : list Z) w,
    exists zs', (sampleNumbers config remaining (of_Z <$> zs) w).1 = of_Z <$> zs'
                /\ length zs' = (length zs + remaining)%nat.
Proof.
  induction remaining as [|remaining IH]; intros zs w.
  - exists zs. split; [reflexivity | lia].
  - cbn [sampleNumbers]. unfold bind. rewrite randomBelow_of_Z.
    rewrite add_of_Z.
    change [of_Z ((drawBelow (max config - min config + 1) w).1 + min config)]
      with (of_Z <$> [((drawBelow (max config - min config + 1) w).1 + min config)%Z]).
    rewrite <- fmap_app.
    destruct (IH (zs ++ [((drawBelow (max config - min config + 1) w).1 + min config)%Z])
                (drawBelow (max config - min config + 1) w).2) as (zs' & E & L).
    exists zs'. split; [exact E|]. rewrite length_app in L. simpl in L. lia.
Qed.

Lemma chooseOps_length (remaining : nat) :
  forall baseOp mixedPool ops w,
    length (chooseOps config remaining baseOp mixedPool ops w).1
    = (length ops + remaining)%nat.
Proof.
  induction remaining as [|remaining IH]; intros baseOp mixedPool ops w.
  - simpl. lia.
  - cbn [chooseOps]. destruct (mixedOperations config).
    + destruct (pop mixedPool) as [[pool' nextOp]|].
      * rewrite IH, length_app. simpl. lia.
      * unfold bind. destruct (randomOperator config w) as [nextOp w1].
        rewrite IH, length_app. simpl. lia.
    + rewrite IH, length_app. simpl. lia.
Qed.

Lemma swapOperands_integers (zs : list Z) (ops : list slot) :
  length zs = operandCount config ->
  exists zs', swapOperands config (of_Z <$> zs) ops = of_Z <$> zs'
              /\ length zs' = length zs.
Proof.
  intros Hl. unfold swapOperands.
  destruct (negb (allowNegative config) && bool_decide (operandCount config = 2%nat)
            && bool_decide (ops !! 0%nat = Some (Some subtraction))) eqn:C;
    [|exists zs; split; reflexivity].
  apply andb_prop in C. destruct C as [C _].
  apply andb_prop in C. destruct C as [_ C]. apply bool_decide_eq_true in C.
  rewrite C in Hl. destruct zs as [|a [|b [|c zs]]]; try discriminate.
  destruct (read (of_Z <$> [a; b]) 0 <? read (of_Z <$> [a; b]) 1)%num.
  - exists [b; a]. split; reflexivity.
  - exists [a; b]. split; reflexivity.
Qed.

Lemma fixDivisions_chain (rest : list slot) :
  forall (pre : list Z) (cur : Z) (tail : list Z) w,
    length tail = length rest ->
    fixDivisions rest (length pre) (of_Z <$> (pre ++ cur :: tail)) w
    = (of_Z <$> (pre ++ (fixChain cur (zip rest tail) w).1),
       (fixChain cur (zip rest tail) w).2).
Proof.
  induction rest as [|op rest IH]; intros pre cur tail w Hl.
  - destruct tail; [reflexivity | discriminate].
  - destruct tail as [|b tail]; [discriminate|]. simpl in Hl.
    cbn [fixDivisions zip zip_with fixChain].
    case_bool_decide as Hop.
    + set (b' := if bool_decide (b = 0%Z) then 1%Z else b).
      assert ((if (read (of_Z <$> (pre ++ cur :: b :: tail)) (length pre + 1) === of_Z 0)%num
               then <[(length pre + 1)%nat := of_Z 1]> (of_Z <$> (pre ++ cur :: b :: tail))
               else of_Z <$> (pre ++ cur :: b :: tail))
              = of_Z <$> (pre ++ cur :: b' :: tail)) as ->.
      { rewrite !fmap_app, !fmap_cons.
        rewrite read_middle_next by now rewrite length_fmap.
        unfold Num.eqb, of_Z at 1 2. change (inject_Z 0) with 0. rewrite inject_Z_eq0.
        subst b'. case_bool_decide; [|reflexivity].
        now rewrite insert_middle_next by now rewrite length_fmap. }
      unfold bind. rewrite randomBelow_of_Z.
      destruct (drawBelow 10 w) as [k w1]. cbn [fst snd].
      rewrite add_of_Z.
      assert (read (of_Z <$> (pre ++ cur :: b' :: tail)) (length pre + 1) = of_Z b') as ->.
      { rewrite !fmap_app, !fmap_cons.
        now rewrite read_middle_next by now rewrite length_fmap. }
      rewrite mul_of_Z.
      assert (<[length pre := of_Z (b' * (k + 1))]> (of_Z <$> (pre ++ cur :: b' :: tail))
              = of_Z <$> ((pre ++ [(b' * (k + 1))%Z]) ++ b' :: tail)) as ->.
      { rewrite !fmap_app, !fmap_cons.
        rewrite insert_middle by now rewrite length_fmap.
        now rewrite <- app_assoc. }
      replace (length pre + 1)%nat with (length (pre ++ [(b' * (k + 1))%Z]))
        by (rewrite length_app; reflexivity).
      rewrite IH by lia.
      destruct (fixChain b' (zip rest tail) w1) as [tl w2].
      cbn [fst snd ret]. now rewrite <- app_assoc.
    + replace (pre ++ cur :: b :: tail) with ((pre ++ [cur]) ++ b :: tail)
        by now rewrite <- app_assoc.
      replace (length pre + 1)%nat with (length (pre ++ [cur]))
        by (rewrite length_app; reflexivity).
      rewrite IH by lia. unfold bind.
      destruct (fixChain b (zip rest tail) w) as [tl w2].
      cbn [fst snd ret]. now rewrite <- app_assoc.
Qed.

Lemma fixChain_length (rest : list (slot * Z)) :
  forall cur w, length (fixChain cur rest w).1 = S (length rest).
Proof.
  induction rest as [|[op b] rest IH]; intros cur w; [reflexivity|].
  cbn [fixChain]. case_bool_decide; unfold bind.
  - destruct (drawBelow 10 w) as [k w1].
    specialize (IH (if bool_decide (b = 0%Z) then 1%Z else b) w1).
    destruct (fixChain _ rest w1) as [tl w2]. simpl in *. lia.
  - specialize (IH b w). destruct (fixChain b rest w) as [tl w2]. simpl in *. lia.
Qed.

End Candidate.

Lemma adjacentDivisions_cons (o : slot) (ops : list slot) :
  adjacentDivisions (o :: ops) = false ->
  adjacentDivisions ops = false /\ (o = Some division -> starts_with_division ops = false).
Proof.
  destruct o as [[]|], ops as [|[[]|] ops]; simpl; intros H; split;
    try assumption; try reflexivity; try discriminate; intros [=].
Qed.

Lemma zip_liftZ (ops : list slot) (zs : list Z) :
  zip ops (of_Z <$> zs) = liftZ (zip ops zs).
Proof.
  revert zs. induction ops as [|o ops IH]; intros [|z zs]; try reflexivity.
  simpl. f_equal. apply IH.
Qed.

Section CandidateShape.
Context `{RT : Runtime World}.
Variable config : QuizConfig.

Lemma fixChain_chain (rest : list (slot * Z)) :
  forall cur w,
    adjacentDivisions rest.*1 = false ->
    exists y ys,
      (fixChain cur rest w).1 = y :: ys
      /\ (starts_with_division rest.*1 = false -> y = cur)
      /\ head_ok y (zip rest.*1 ys) /\ tail_ok (zip rest.*1 ys).
Proof.
  induction rest as [|[op b] rest IH]; intros cur w Hadj.
  - exists cur, []. repeat split.
  - rewrite fmap_cons in Hadj. cbn [fst] in Hadj.
    apply adjacentDivisions_cons in Hadj. destruct Hadj as [Hadj Hnext].
    cbn [fixChain]. case_bool_decide as Hop; unfold bind.
    + subst op. specialize (Hnext eq_refl).
      destruct (drawBelow 10 w) as [k w1].
      set (b' := if bool_decide (b = 0%Z) then 1%Z else b).
      assert (b' <> 0%Z) as Hb' by (subst b'; case_bool_decide; lia).
      destruct (IH b' w1 Hadj) as (y & ys & E & Hy & Hh & Ht).
      specialize (Hy Hnext). subst y.
      destruct (fixChain b' rest w1) as [tl w2]. simpl in E. subst tl.
      exists (b' * (k + 1))%Z, (b' :: ys). cbn [fst ret].
      split; [reflexivity|]. split; [intros [=]|].
      rewrite fmap_cons. cbn [fst zip zip_with head_ok tail_ok].
      split; [split; [assumption | now exists (k + 1)%Z; lia]|].
      split; [|split; assumption].
      intros _. clear -Hnext. destruct rest as [|[o z] rest], ys as [|y ys]; try reflexivity.
      exact Hnext.
    + destruct (IH b w Hadj) as (y & ys & E & Hy & Hh & Ht).
      destruct (fixChain b rest w) as [tl w2]. simpl in E. subst tl.
      exists cur, (y :: ys). cbn [fst ret].
      split; [reflexivity|]. split; [reflexivity|].
      rewrite fmap_cons. cbn [fst zip zip_with head_ok tail_ok].
      split; [destruct op as [[]|]; try exact I; congruence|].
      split; [intros ->; congruence|]. split; assumption.
Qed.

Lemma candidate_ops_length (w : World) :
  length (candidate config w).1.2 = (operandCount config - 1)%nat.
Proof.
  unfold candidate, bind.
  destruct (sampleNumbers config (operandCount config) [] w) as [numbers w1].
  destruct (randomOperator config w1) as [baseOp w2].
  destruct (sort_random (operators config) w2) as [mixedPool w3].
  pose proof (chooseOps_length config (operandCount config - 1) baseOp mixedPool [] w3) as Hl.
  destruct (chooseOps config (operandCount config - 1) baseOp mixedPool [] w3) as [ops w4].
  simpl in Hl.
  destruct (integerDivisionOnly config);
    [destruct (fixDivisions ops 0 (swapOperands config numbers ops) w4)|];
    simpl; lia.
Qed.

(** With at least one operand, a candidate has integer operands, one more
    than operators; after the fix-up of lines 107-115, and when no two
    division slots are adjacent, the left operand of every division slot is
    an exact multiple of its non-zero right operand. *)
Lemma candidate_shape (w : World) :
  (1 <= operandCount config)%nat ->
  exists z0 zs ops,
    (candidate config w).1 = (of_Z <$> (z0 :: zs), ops)
    /\ length zs = length ops
    /\ (integerDivisionOnly config = true -> adjacentDivisions ops = false ->
        head_ok z0 (zip ops zs) /\ tail_ok (zip ops zs)).
Proof.
  intros Hc. unfold candidate, bind.
  destruct (sampleNumbers_integers config (operandCount config) [] w) as (zs1 & E1 & L1).
  change (of_Z <$> []) with (@nil number) in E1.
  destruct (sampleNumbers config (operandCount config) [] w) as [numbers w1].
  simpl in E1, L1. subst numbers.
  destruct (randomOperator config w1) as [baseOp w2].
  destruct (sort_random (operators config) w2) as [mixedPool w3].
  pose proof (chooseOps_length config (operandCount config - 1) baseOp mixedPool [] w3) as Hl.
  destruct (chooseOps config (operandCount config - 1) baseOp mixedPool [] w3) as [ops w4].
  simpl in Hl.
  destruct (swapOperands_integers config zs1 ops L1) as (zs2 & E2 & L2).
  rewrite E2. destruct zs2 as [|c tail]; [simpl in L2; lia|]. simpl in L2.
  destruct (integerDivisionOnly config) eqn:Hint.
  - pose proof (fixDivisions_chain ops [] c tail w4) as Hfix.
    cbn [app length] in Hfix. rewrite Hfix by lia. clear Hfix. cbn [ret fst snd].
    pose proof (fixChain_length (zip ops tail) c w4) as Hlen.
    destruct ((fixChain c (zip ops tail) w4).1) as [|y ys] eqn:Ey; [discriminate|].
    exists y, ys, ops. split; [reflexivity|].
    rewrite length_zip in Hlen. simpl in Hlen. split; [lia|].
    intros _ Hadj.
    destruct (fixChain_chain (zip ops tail) c w4) as (y' & ys' & E & _ & Hh & Ht).
    { rewrite fst_zip by lia. exact Hadj. }
    rewrite fst_zip in Hh, Ht by lia.
    rewrite Ey in E. injection E as <- <-. split; assumption.
  - exists c, tail, ops. cbn [ret fst]. split; [reflexivity|].
    split; [lia | discriminate].
Qed.


End CandidateShape.

(** ** Constraints on the problems returned *)

Lemma collapse_finite (rest : list (slot * number)) :
  forall cur,
    Num.isFinite cur = true -> Forall (fun p => Num.isFinite p.2 = true) rest ->
    Num.isFinite (collapse cur rest).1 = true
    /\ Forall (fun p => Num.isFinite p.2 = true) (collapse cur rest).2.
Proof.
  induction rest as [|[o n] rest IH]; intros cur Hc Hr; [now split|].
  apply Forall_cons in Hr. destruct Hr as [Hn Hr]. simpl in Hn.
  destruct (slot_md o) eqn:Ho.
  - destruct o as [op|]; [|discriminate]. simpl in Ho.
    rewrite collapse_md by assumption. apply IH; [|assumption].
    now apply finite_md_reduce.
  - rewrite collapse_keep by assumption. cbn [fst snd].
    destruct (IH n Hn Hr) as [H1 H2]. split; [assumption|].
    constructor; assumption.
Qed.

Lemma as_fold_finite (rest : list (slot * number)) :
  forall res neg,
    Num.isFinite res = true -> Forall (fun p => Num.isFinite p.2 = true) rest ->
    Num.isFinite (as_fold rest res neg).1 = true.
Proof.
  induction rest as [|[o n] rest IH]; intros res neg Hres Hr; [assumption|].
  apply Forall_cons in Hr. destruct Hr as [Hn Hr]. simpl in Hn.
  cbn [as_fold]. apply IH; [|assumption]. now apply finite_as_apply.
Qed.

(** On finite operands, one more than operators, the result is finite. *)
Lemma evaluate_finite (n0 : number) (ns : list number) (ops : list slot) :
  length ns = length ops ->
  Forall (fun n => Num.isFinite n = true) (n0 :: ns) ->
  Num.isFinite (result (evaluateExpressionExtended (n0 :: ns) ops)) = true.
Proof.
  intros Hl Hfin. apply Forall_cons in Hfin. destruct Hfin as [H0 Hns].
  unfold evaluateExpressionExtended.
  rewrite evaluatePasses_matched by assumption. cbv zeta.
  assert (Forall (fun p : slot * number => Num.isFinite p.2 = true) (zip ops ns)) as Hz.
  { apply Forall_forall. intros [o n] Hin. apply elem_of_zip_r in Hin.
    rewrite Forall_forall in Hns. now apply Hns. }
  destruct (collapse_finite (zip ops ns) n0 H0 Hz) as [Hc Hr].
  pose proof (as_fold_finite (collapse n0 (zip ops ns)).2 (collapse n0 (zip ops ns)).1
                (if ((collapse n0 (zip ops ns)).1 <? of_Z 0)%num then true else false)
                Hc Hr) as Hf.
  destruct (as_fold _ _ _) as [r neg]. cbn [result]. now apply finite_round2.
Qed.

Section Constraints.
Context `{RT : Runtime World}.
Variable config : QuizConfig.

Lemma attempt_acceptable (w w' : World) (problem : MathProblem) :
  (1 <= operandCount config)%nat ->
  attempt config w = (Some problem, w') -> acceptable config problem.
Proof.
  intros Hc. unfold attempt, bind.
  destruct (candidate_shape config w Hc) as (z0 & zs & ops & E & Hl & _).
  destruct (candidate config w) as [c w1]. cbn [fst] in E. subst c. cbn [fst snd].
  set (numbers := of_Z <$> z0 :: zs).
  destruct (rejected config (evaluateExpressionExtended numbers ops)) eqn:R;
    [unfold ret; intros [=]|].
  destruct (Math_random w1) as [r w2]. destruct (Date_now w2) as [now w3].
  unfold ret. intros [= <- _]. exists numbers, ops. cbn [expression correctAnswer].
  split; [reflexivity|]. split; [reflexivity|].
  unfold rejected in R. apply orb_false_elim in R. destruct R as [R1 R2].
  assert (Num.isFinite (result (evaluateExpressionExtended numbers ops)) = true) as Hfin.
  { unfold numbers. rewrite fmap_cons.
    apply evaluate_finite; [now rewrite length_fmap|].
    rewrite <- fmap_cons.
    apply Forall_forall. intros n Hn. apply list_elem_of_fmap in Hn.
    destruct Hn as (z & -> & _). reflexivity. }
  split.
  - intros Hneg. rewrite Hneg in R1. simpl in R1.
    apply orb_false_elim in R1. destruct R1 as [R1 R1'].
    split; [now apply geb_0_finite | assumption].
  - intros Hint. rewrite Hint in R2. simpl in R2. now apply negb_false_iff in R2.
Qed.

Lemma fallback_acceptable (w : World) : acceptable config (fallbackProblem w).1.
Proof.
  unfold fallbackProblem, bind, ret. destruct (Date_now w) as [now w1].
  exists [of_Z 1; of_Z 1], [Some addition]. cbn [fst expression correctAnswer].
  repeat split; reflexivity.
Qed.

Lemma generateSingleProblem_acceptable (w : World) :
  (1 <= operandCount config)%nat -> acceptable config (generateSingleProblem config w).1.
Proof.
  intros Hc. unfold generateSingleProblem.
  destruct (attemptLoop_outcome config 200 w)
    as [(k & w_k & problem & w' & _ & _ & Ha & Hl) | (w_n & _ & Hl)]; rewrite Hl.
  - now apply (attempt_acceptable w_k w').
  - apply fallback_acceptable.
Qed.


End Constraints.

(** ** The generator on replayed draws *)

Example candidate_single_division :
  (candidate Samples.singleDivision Samples.singleWorld).1
  = ([of_Z 18; of_Z 6], [Some division]).
Proof. reflexivity. Qed.

Example generate_single_division :
  (generateSingleProblem Samples.singleDivision Samples.singleWorld).1
  = {| id := "replayed0"; expression := "18 ÷ 6"; correctAnswer := of_Z 3;
       userAnswer := ""; isCorrect := None; timestamp := 1000 |}.
Proof. vm_compute. reflexivity. Qed.

(** All 200 attempts rejected: the fallback is returned. *)
Example generate_fallback :
  (generateSingleProblem Samples.alwaysNegative Samples.chainWorld).1
  = {| id := "fallback"; expression := "1 + 1"; correctAnswer := of_Z 2;
       userAnswer := ""; isCorrect := None; timestamp := 1000 |}.
Proof. vm_compute. reflexivity. Qed.

(** Without an operand, which section 3 excludes, the answer is [NaN],
    and [NaN >= 0] is false. *)
Example generate_no_operand :
  correctAnswer (generateSingleProblem Samples.noOperand Samples.chainWorld).1 = NaN
  /\ (NaN >=? of_Z 0)%num = false.
Proof. split; vm_compute; reflexivity. Qed.

(** A range with a single non-negative difference: the set is filled with
    duplicates up to the quantity asked for. *)
Example generate_set_with_duplicates :
  expression <$> (generateProblemSet Samples.fewDifferences Samples.singleWorld).1
  = ["6 - 4"; "1 - 1"; "1 - 1"; "1 - 1"; "1 - 1"].
Proof. vm_compute. reflexivity. Qed.




(** * Further properties *)

(** ** Pass 1 removes the multiplications and divisions *)

Lemma md_step_none (st : md_state) :
  md_step st = None -> (length (md_ops st) <= md_i st)%nat.
Proof.
  unfold md_step. case_bool_decide as Hi; [|intros _; lia].
  destruct (md_ops st !! md_i st) as [[op|]|]; [destruct (is_md op)|..]; discriminate.
Qed.

Lemma md_loop_ops (fuel : nat) :
  forall st,
    (length (md_ops st) - md_i st <= fuel)%nat ->
    md_ops (md_loop fuel st)
    = take (md_i st) (md_ops st)
      ++ filter (fun o => slot_md o = false) (drop (md_i st) (md_ops st)).
Proof.
  induction fuel as [|fuel IH]; intros [i nums ops] Hm; cbn [md_i md_ops] in *.
  - cbn [md_loop md_ops]. rewrite drop_ge, take_ge by lia. now rewrite app_nil_r.
  - cbn [md_loop]. destruct (md_step (MdState i nums ops)) as [st'|] eqn:E.
    + pose proof (md_step_measure _ _ E) as Hdec. cbn [md_i md_ops] in Hdec.
      rewrite IH by lia. clear IH.
      unfold md_step in E. cbn [md_i md_ops md_numbers] in E.
      case_bool_decide as Hi; [|discriminate].
      destruct (ops !! i) as [o|] eqn:Ho; [|apply lookup_ge_None in Ho; lia].
      rewrite (drop_S ops o i Ho). rewrite filter_cons.
      destruct (slot_md o) eqn:Hmd.
      * destruct o as [op|]; [|discriminate]. cbn [slot_md] in Hmd. rewrite Hmd in E.
        injection E as <-. cbn [md_i md_ops]. unfold splice. cbn [app].
        rewrite decide_False by discriminate.
        rewrite take_app_le by (rewrite length_take; lia).
        rewrite take_take, Nat.min_id.
        rewrite drop_app_ge by (rewrite length_take; lia).
        rewrite length_take. replace (i - i `min` length ops)%nat with 0%nat by lia.
        rewrite drop_0. now replace (i + 1)%nat with (S i) by lia.
      * assert (st' = MdState (i + 1) nums ops) as ->.
        { destruct o as [op|]; cbn [slot_md] in Hmd; [rewrite Hmd in E|]; congruence. }
        cbn [md_i md_ops]. rewrite decide_True by reflexivity.
        replace (i + 1)%nat with (S i) by lia.
        rewrite (take_S_r ops i o Ho). now rewrite <- app_assoc.
    + cbn [md_ops]. apply md_step_none in E. cbn [md_i md_ops] in E.
      rewrite drop_ge, take_ge by lia. now rewrite app_nil_r.
Qed.

(** X1.  Whatever the arrays, the operators left by pass 1 are the
    operators given without the multiplications and divisions, in their
    order: pass 2 never meets a multiplication or a division. *)
Theorem md_pass_keeps_additive (numbers : list number) (operators : list slot) :
  md_ops (md_pass numbers operators) = filter (fun o => slot_md o = false) operators
  /\ Forall (fun o => o <> Some multiplication /\ o <> Some division)
       (md_ops (md_pass numbers operators)).
Proof.
  assert (md_ops (md_pass numbers operators)
          = filter (fun o => slot_md o = false) operators) as E.
  { unfold md_pass. rewrite md_loop_ops by (simpl; lia). reflexivity. }
  split; [exact E|]. rewrite E. apply Forall_forall. intros o Ho.
  apply list_elem_of_filter in Ho. destruct Ho as [Ho _].
  split; intros ->; discriminate.
Qed.

(** ** The rounding of the result *)

Lemma Qfloor_unique (x : Q) (z : Z) :
  inject_Z z <= x -> x < inject_Z (z + 1) -> Qfloor x = z.
Proof.
  intros Hl Hu.
  pose proof (Qfloor_le x) as Fl. pose proof (Qlt_floor x) as Fu.
  assert (inject_Z (Qfloor x) < inject_Z (z + 1)) as H1 by lra.
  assert (inject_Z z < inject_Z (Qfloor x + 1)) as H2 by lra.
  rewrite <- Zlt_Qlt in H1, H2. lia.
Qed.

Lemma round_of_Z (z : Z) : Num.round (of_Z z) = of_Z z.
Proof.
  unfold Num.round, of_Z. do 2 f_equal. apply Qfloor_unique.
  - lra.
  - rewrite inject_Z_plus. change (inject_Z 1) with 1. lra.
Qed.

Lemma round2_of_Z (z : Z) : round2 (of_Z z) = of_Z z.
Proof.
  unfold round2. rewrite mul_of_Z, round_of_Z.
  rewrite (Z.mul_comm z 100). now apply div_of_Z.
Qed.

Lemma round2_Fin (q : Q) :
  round2 (Fin q) = Fin (Qred (inject_Z (hundredths q) / 100)).
Proof. reflexivity. Qed.


Lemma hundredths_rounded (z : Z) : hundredths (Qred (inject_Z z / 100)) = z.
Proof.
  unfold hundredths.
  assert (Qred (Qred (inject_Z z / 100) * 100) == inject_Z z) as Ey.
  { rewrite !Qred_correct. unfold Qdiv. change (/ 100) with (1 # 100). ring. }
  set (y := Qred (Qred (inject_Z z / 100) * 100)) in *. clearbody y.
  apply Qfloor_unique.
  - lra.
  - rewrite inject_Z_plus. change (inject_Z 1) with 1. lra.
Qed.

Lemma round2_idempotent (x : number) : round2 (round2 x) = round2 x.
Proof.
  destruct x as [q| | |]; try reflexivity.
  rewrite !round2_Fin. now rewrite hundredths_rounded.
Qed.


(** ** A negative result sets the flag *)

Lemma as_loop_final (ops : list slot) :
  forall i nums res neg,
    (neg = false -> (res <? of_Z 0)%num = false) ->
    (as_loop ops i nums res neg).2 = false ->
    ((as_loop ops i nums res neg).1 <? of_Z 0)%num = false.
Proof.
  induction ops as [|op ops IH]; intros i nums res neg Hinit Hflag.
  - simpl in *. auto.
  - cbn [as_loop] in *. apply IH; [|assumption].
    destruct (as_apply op res (read nums (i + 1)) <? of_Z 0)%num; [discriminate | reflexivity].
Qed.

Lemma hundredths_nonnegative (q : Q) : 0 <= q -> (0 <= hundredths q)%Z.
Proof.
  intros Hq. unfold hundredths.
  pose proof (Qred_correct (q * 100)) as Ey.
  set (y := Qred (q * 100)) in *. clearbody y.
  change 0%Z with (Qfloor 0). apply Qfloor_resp_le. lra.
Qed.

Lemma round2_not_negative (x : number) :
  (x <? of_Z 0)%num = false -> (round2 x <? of_Z 0)%num = false.
Proof.
  destruct x as [q| | |]; try (intros H; exact H).
  intros H. cbn [Num.ltb of_Z] in H. apply negb_false_iff in H. reflect_Q.
  change (inject_Z 0) with 0 in H.
  rewrite round2_Fin. cbn [Num.ltb of_Z]. apply negb_false_iff, Qle_bool_iff.
  rewrite Qred_correct. change (inject_Z 0) with 0.
  pose proof (hundredths_nonnegative q H) as Hz.
  rewrite Zle_Qle in Hz. change (inject_Z 0) with 0 in Hz.
  unfold Qdiv. change (/ 100) with (1 # 100). lra.
Qed.

(** X4.  When the flag [hasNegativeIntermediate] is not set, the result is
    not negative, for every input: in the test of line 120 the comparison
    [result < 0] never decides, and [rejected] depends on the flag and on
    the integer test only. *)
Theorem negative_result_sets_flag (numbers : list number) (operators : list slot) :
  (hasNegativeIntermediate (evaluateExpressionExtended numbers operators) = false ->
   (result (evaluateExpressionExtended numbers operators) <? of_Z 0)%num = false)
  /\ forall config,
       rejected config (evaluateExpressionExtended numbers operators)
       = (negb (allowNegative config)
            && hasNegativeIntermediate (evaluateExpressionExtended numbers operators))
         || (integerDivisionOnly config
               && negb (Num.isInteger (result (evaluateExpressionExtended numbers operators)))).
Proof.
  assert (hasNegativeIntermediate (evaluateExpressionExtended numbers operators) = false ->
          (result (evaluateExpressionExtended numbers operators) <? of_Z 0)%num = false) as H.
  { unfold evaluateExpressionExtended, evaluatePasses.
    set (st := md_pass numbers operators). set (r0 := read (md_numbers st) 0).
    pose proof (as_loop_final (md_ops st) 0 (md_numbers st) r0
                  (if (r0 <? of_Z 0)%num then true else false)) as Hf.
    destruct (as_loop _ _ _ _ _) as [r neg]. cbn [result hasNegativeIntermediate fst snd] in *.
    intros Hneg. apply round2_not_negative. apply Hf; [|assumption].
    now destruct (r0 <? of_Z 0)%num. }
  split; [exact H|]. intros config. unfold rejected.
  destruct (hasNegativeIntermediate (evaluateExpressionExtended numbers operators));
    [now rewrite orb_true_r|].
  now rewrite (H eq_refl).
Qed.

Lemma negative_result_sets_flag_witness :
  (result (evaluateExpressionExtended [of_Z 2; of_Z 3; of_Z 4]
             [Some addition; Some multiplication]) <? of_Z 0)%num = false.
Proof.
  apply (proj1 (negative_result_sets_flag [of_Z 2; of_Z 3; of_Z 4]
                  [Some addition; Some multiplication])).
  reflexivity.
Defined.

(** ** Integer operands without a division *)

Lemma collapse_integers (rest : list (slot * Z)) :
  forall cur,
    Forall (fun p => p.1 <> Some division) rest ->
    exists c rest',
      collapse (of_Z cur) (liftZ rest) = (of_Z c, liftZ rest').
Proof.
  induction rest as [|[o n] rest IH]; intros cur Hnd.
  - exists cur, []. reflexivity.
  - apply Forall_cons in Hnd. destruct Hnd as [Ho Hnd]. cbn [fst] in Ho.
    unfold liftZ. rewrite fmap_cons. fold (liftZ rest). cbn [fst snd].
    destruct (slot_md o) eqn:Hmd.
    + destruct o as [[]|]; try discriminate; [|congruence].
      rewrite collapse_md by reflexivity. cbn [md_reduce]. rewrite mul_of_Z.
      now apply IH.
    + rewrite collapse_keep by assumption.
      destruct (IH n Hnd) as (c & rest' & E). rewrite E. cbn [fst snd].
      exists cur, ((o, c) :: rest'). reflexivity.
Qed.

Lemma as_fold_integers (rest : list (slot * Z)) :
  forall res neg, exists z, (as_fold (liftZ rest) (of_Z res) neg).1 = of_Z z.
Proof.
  induction rest as [|[o n] rest IH]; intros res neg.
  - exists res. reflexivity.
  - unfold liftZ. rewrite fmap_cons. fold (liftZ rest). cbn [fst snd as_fold].
    destruct o as [[]|]; cbn [as_apply]; rewrite ?add_of_Z, ?sub_of_Z; apply IH.
Qed.



(** ** The ladder of ratings *)

(** X6.  Whatever the three numbers, also with a zero total, [NaN] or an
    infinity, [calculateRating] returns one of the eight grade and colour
    pairs of the ladder, in the number model and on binary64 floats: each
    grade always comes with the same colour. *)
Theorem calculateRating_on_ladder :
  (forall score total timeInSeconds : number,
      In (calculateRating score total timeInSeconds) ratingLadder)
  /\ (forall score total timeInSeconds : float,
        In (Binary64.calculateRating score total timeInSeconds) ratingLadder)
  /\ NoDup (grade <$> ratingLadder).
Proof.
  split; [|split].
  - intros score total timeInSeconds. unfold calculateRating. cbv zeta.
    repeat match goal with
      | |- context [if ?b then _ else _] => destruct b
      end; unfold ratingLadder; simpl; tauto.
  - intros score total timeInSeconds. unfold Binary64.calculateRating. cbv zeta.
    repeat match goal with
      | |- context [if ?b then _ else _] => destruct b
      end; unfold ratingLadder; simpl; tauto.
  - unfold ratingLadder. cbn [fmap list_fmap grade].
    apply (bool_decide_eq_true_1 (NoDup ["SSS"; "S"; "A+"; "A"; "B+"; "B"; "C"; "D"])).
    vm_compute. reflexivity.
Qed.

Lemma calculateRating_Fin (score total elapsed : Q) :
  0 < total ->
  calculateRating (Fin score) (Fin total) (Fin elapsed)
  = ratingOf (score / total * 100) (elapsed / total).
Proof.
  intros Ht. unfold calculateRating, ratingOf, of_Z. cbv zeta. cbn [Num.div].
  assert (Qeq_bool total 0 = false) as ->
    by (apply Qeq_bool_false_iff; intros E; rewrite E in Ht; discriminate).
  cbn [Num.mul Num.eqb Num.geb Num.ltb].
  change (inject_Z 100) with 100.
  change (inject_Z 4) with 4; change (inject_Z 7) with 7; change (inject_Z 8) with 8.
  change (inject_Z 90) with 90; change (inject_Z 80) with 80; change (inject_Z 60) with 60.
  assert (Qred (Qred (score / total) * 100) == score / total * 100) as Ea
    by (now rewrite !Qred_correct).
  pose proof (Qred_correct (elapsed / total)) as Et.
  rewrite (Qeqb_comp _ _ Ea 100 100 (Qeq_refl 100)).
  rewrite (Qleb_comp 90 90 (Qeq_refl 90) _ _ Ea).
  rewrite (Qleb_comp 80 80 (Qeq_refl 80) _ _ Ea).
  rewrite (Qleb_comp 60 60 (Qeq_refl 60) _ _ Ea).
  rewrite (Qleb_comp 4 4 (Qeq_refl 4) _ _ Et).
  rewrite (Qleb_comp 7 7 (Qeq_refl 7) _ _ Et).
  rewrite (Qleb_comp 8 8 (Qeq_refl 8) _ _ Et).
  reflexivity.
Qed.

Lemma average_time_monotone (total e1 e2 : Q) :
  0 < total -> e1 <= e2 -> e1 / total <= e2 / total.
Proof.
  intros Ht He. unfold Qdiv. apply Qmult_le_compat_r; [assumption|].
  apply Qinv_le_0_compat. lra.
Qed.

Ltac split_rating :=
  unfold ratingOf;
  repeat match goal with
    | |- context [Qeq_bool ?a ?b] => let B := fresh "B" in destruct (Qeq_bool a b) eqn:B
    | |- context [Qle_bool ?a ?b] => let B := fresh "B" in destruct (Qle_bool a b) eqn:B
    end;
  reflect_Q; cbn [negb grade].

(** X7.  For a positive total and a given score, taking longer never gives
    a better grade. *)
Theorem grade_monotone_in_time (score total e1 e2 : Q) :
  0 < total -> e1 <= e2 ->
  (gradeRank (grade (calculateRating (Fin score) (Fin total) (Fin e2)))
   <= gradeRank (grade (calculateRating (Fin score) (Fin total) (Fin e1))))%nat.
Proof.
  intros Ht He. rewrite !calculateRating_Fin by assumption.
  pose proof (average_time_monotone total e1 e2 Ht He) as Havg.
  set (accuracy := score / total * 100) in *.
  set (a1 := e1 / total) in *. set (a2 := e2 / total) in *.
  clearbody accuracy a1 a2.
  split_rating; try (vm_compute; lia); exfalso; lra.
Qed.

Lemma grade_monotone_in_time_witness :
  (gradeRank (grade (calculateRating (Fin 10) (Fin 10) (Fin 75)))
   <= gradeRank (grade (calculateRating (Fin 10) (Fin 10) (Fin 30))))%nat.
Proof.
  apply (grade_monotone_in_time 10 10 30 75); reflexivity || discriminate.
Defined.

(** X8.  For a positive total and a given time, a higher score that does
    not exceed the total never gives a worse grade. *)
Theorem grade_monotone_in_score (s1 s2 total elapsed : Q) :
  0 < total -> s1 <= s2 -> s2 <= total ->
  (gradeRank (grade (calculateRating (Fin s1) (Fin total) (Fin elapsed)))
   <= gradeRank (grade (calculateRating (Fin s2) (Fin total) (Fin elapsed))))%nat.
Proof.
  intros Ht Hs Hmax. rewrite !calculateRating_Fin by assumption.
  pose proof (average_time_monotone total s1 s2 Ht Hs) as H12.
  pose proof (average_time_monotone total s2 total Ht Hmax) as H2.
  assert (total / total == 1) as E1 by (field; lra).
  set (r1 := s1 / total) in *. set (r2 := s2 / total) in *.
  set (one := total / total) in *. set (avg := elapsed / total) in *.
  clearbody r1 r2 one avg.
  split_rating; try (vm_compute; lia); exfalso; lra.
Qed.

Lemma grade_monotone_in_score_witness :
  (gradeRank (grade (calculateRating (Fin 8) (Fin 10) (Fin 30)))
   <= gradeRank (grade (calculateRating (Fin 10) (Fin 10) (Fin 30))))%nat.
Proof.
  apply (grade_monotone_in_score 8 10 10 30); reflexivity || discriminate.
Defined.

(** X9.  A score above a positive total has an accuracy above 100: the
    grade is "A" when the average time is below 8 and "B+" otherwise,
    never one of the three grades kept for an accuracy of exactly 100. *)
Theorem score_above_total_grade (score total elapsed : Q) :
  0 < total -> total < score ->
  grade (calculateRating (Fin score) (Fin total) (Fin elapsed))
  = (if Qlt_le_dec (elapsed / total) 8 then "A" else "B+").
Proof.
  intros Ht Hs. rewrite calculateRating_Fin by assumption.
  assert (total / total < score / total) as Hr.
  { unfold Qdiv. apply Qmult_lt_compat_r; [|assumption]. now apply Qinv_lt_0_compat. }
  assert (total / total == 1) as E1 by (field; lra).
  set (r := score / total) in *. set (one := total / total) in *.
  set (avg := elapsed / total) in *. clearbody r one avg.
  destruct (Qlt_le_dec avg 8); split_rating; try reflexivity; exfalso; lra.
Qed.

Lemma score_above_total_grade_witness :
  grade (calculateRating (Fin 11) (Fin 10) (Fin 30))
  = (if Qlt_le_dec (30 / 10) 8 then "A" else "B+").
Proof.
  apply (score_above_total_grade 11 10 30); reflexivity.
Defined.

(** ** Presets and symbols *)

(** X10.  Every entry of the preset table is a well-formed range with at
    least two operands: 1 <= min <= max and operandCount >= 2. *)
Theorem difficulty_presets_well_formed (key : string) (p : Preset) :
  DIFFICULTY_PRESETS !! key = Some p ->
  (1 <= preset_min p)%Z /\ (preset_min p <= preset_max p)%Z
  /\ (2 <= preset_operandCount p)%nat.
Proof.
  unfold DIFFICULTY_PRESETS. intros H.
  destruct (decide (key = "easy")) as [->|N1];
    [rewrite lookup_insert_eq in H; injection H as <-; simpl; lia|].
  rewrite lookup_insert_ne in H by congruence.
  destruct (decide (key = "medium")) as [->|N2];
    [rewrite lookup_insert_eq in H; injection H as <-; simpl; lia|].
  rewrite lookup_insert_ne in H by congruence.
  destruct (decide (key = "hard")) as [->|N3];
    [rewrite lookup_singleton_eq in H; injection H as <-; simpl; lia|].
  rewrite lookup_singleton_ne in H by congruence. discriminate.
Qed.

Lemma difficulty_presets_well_formed_witness :
  (1 <= preset_min (MkPreset 10 100 3))%Z
  /\ (preset_min (MkPreset 10 100 3) <= preset_max (MkPreset 10 100 3))%Z
  /\ (2 <= preset_operandCount (MkPreset 10 100 3))%nat.
Proof.
  apply (difficulty_presets_well_formed "hard" (MkPreset 10 100 3)). reflexivity.
Defined.

(** X11.  Different operators have different symbols, and none is rendered
    like a missing operator: the text of a slot determines the slot. *)
Theorem slotSymbol_injective (o1 o2 : slot) :
  slotSymbol o1 = slotSymbol o2 -> o1 = o2.
Proof.
  destruct o1 as [[]|], o2 as [[]|]; simpl; intros H; try reflexivity; discriminate H.
Qed.

Lemma slotSymbol_injective_witness : Some division = Some division.
Proof.
  apply (slotSymbol_injective (Some division) (Some division)). reflexivity.
Defined.

(** ** The environment *)

Lemma cycle_lawful : lawful (RT := Cycle.runtime).
Proof.
  split.
  - intros w. cbn [Math_random Cycle.runtime Cycle.random fst].
    pose proof (Nat.mod_upper_bound w 10 ltac:(lia)) as Hm.
    unfold Qle, Qlt. simpl. lia.
  - intros l w. cbn [sort_random Cycle.runtime Cycle.sort fst].
    apply reverse_Permutation.
Qed.

Section Environment.
Context `{RT : Runtime World}.
Hypothesis Hlawful : lawful.

Lemma drawBelow_range (n : Z) (w : World) :
  (1 <= n)%Z -> (0 <= (drawBelow n w).1 < n)%Z.
Proof.
  intros Hn. unfold drawBelow, bind, ret.
  destruct Hlawful as [Hr _]. specialize (Hr w).
  destruct (Math_random w) as [r w1]. cbn [fst] in *.
  pose proof (Qred_correct (r * inject_Z n)) as Ey.
  assert (1 <= inject_Z n) as Hn' by (rewrite Zle_Qle in Hn; exact Hn).
  assert (0 <= r * inject_Z n) as Hp0 by (apply Qmult_le_0_compat; lra).
  assert (r * inject_Z n < 1 * inject_Z n) as Hpn by (apply Qmult_lt_compat_r; lra).
  set (y := Qred (r * inject_Z n)) in *. set (p := r * inject_Z n) in *.
  pose proof (Qfloor_le y) as Fl.
  assert (Qfloor 0 <= Qfloor y)%Z as F0 by (apply Qfloor_resp_le; lra).
  change (Qfloor 0) with 0%Z in F0.
  clearbody y p. split; [exact F0|].
  rewrite Zlt_Qlt. lra.
Qed.

End Environment.

(** ** The stages of a candidate *)

Lemma pop_snoc {A} (l l' : list A) (x : A) :
  pop l = Some (l', x) -> l = l' ++ [x].
Proof.
  unfold pop. destruct (last l) as [y|] eqn:E; [|discriminate].
  intros [= <- <-]. apply last_Some in E. destruct E as [l'' ->].
  now rewrite removelast_last.
Qed.

Lemma pop_app_snoc {A} (l : list A) (x : A) : pop (l ++ [x]) = Some (l, x).
Proof. unfold pop. now rewrite last_snoc, removelast_last. Qed.

Lemma pop_nil {A} : pop (@nil A) = None.
Proof. reflexivity. Qed.

Section Stages.
Context `{RT : Runtime World}.
Variable config : QuizConfig.

Lemma candidate_stages (w : World) :
  candidate config w
  = let sn := sampleNumbers config (operandCount config) [] w in
    let os := operatorStage config sn.2 in
    let sw := swapOperands config sn.1 os.1 in
    if integerDivisionOnly config
    then ((fixDivisions os.1 0 sw os.2).1, os.1, (fixDivisions os.1 0 sw os.2).2)
    else (sw, os.1, os.2).
Proof.
  unfold candidate, operatorStage, bind. cbv zeta.
  destruct (sampleNumbers config (operandCount config) [] w) as [numbers w1]. cbn [fst snd].
  destruct (randomOperator config w1) as [baseOp w2].
  destruct (sort_random (operators config) w2) as [mixedPool w3].
  destruct (chooseOps config (operandCount config - 1) baseOp mixedPool [] w3) as [ops w4].
  cbn [fst snd].
  destruct (integerDivisionOnly config); [|reflexivity].
  now destruct (fixDivisions ops 0 (swapOperands config numbers ops) w4).
Qed.

Lemma sampleNumbers_range (remaining : nat) :
  lawful -> (min config <= max config)%Z ->
  forall (zs : list Z) w,
    Forall (inRange config) zs ->
    exists zs', (sampleNumbers config remaining (of_Z <$> zs) w).1 = of_Z <$> zs'
                /\ length zs' = (length zs + remaining)%nat
                /\ Forall (inRange config) zs'.
Proof.
  intros HL Hmm. induction remaining as [|remaining IH]; intros zs w Hzs.
  - exists zs. repeat split; [lia | assumption].
  - cbn [sampleNumbers]. unfold bind. rewrite randomBelow_of_Z. rewrite add_of_Z.
    pose proof (drawBelow_range HL (max config - min config + 1) w ltac:(lia)) as Hd.
    set (d := (drawBelow (max config - min config + 1) w).1) in *.
    change [of_Z (d + min config)] with (of_Z <$> [(d + min config)%Z]).
    rewrite <- fmap_app.
    destruct (IH (zs ++ [(d + min config)%Z]) (drawBelow (max config - min config + 1) w).2)
      as (zs' & E & L & R).
    { apply Forall_app. split; [assumption|]. constructor; [|constructor].
      unfold inRange. lia. }
    exists zs'. split; [exact E|]. rewrite length_app in L. simpl in L.
    split; [lia | assumption].
Qed.

Lemma randomOperator_configured (w : World) :
  lawful -> operators config <> [] -> (configured config) (randomOperator config w).1.
Proof.
  intros HL Hne. unfold randomOperator, bind. rewrite randomBelow_of_Z. cbn [ret fst].
  assert (1 <= Z.of_nat (length (operators config)))%Z as Hlen
    by (destruct (operators config); [congruence | simpl; lia]).
  pose proof (drawBelow_range HL _ w Hlen) as Hd.
  set (d := (drawBelow (Z.of_nat (length (operators config))) w).1) in *.
  unfold as_index, of_Z. rewrite Qfloor_Z. unfold index.
  rewrite (proj2 (Z.ltb_ge d 0)) by lia.
  destruct (operators config !! Z.to_nat d) as [op|] eqn:E.
  - exists op. split; [reflexivity|]. now apply list_elem_of_lookup_2 in E.
  - apply lookup_ge_None in E. lia.
Qed.

Lemma chooseOps_configured (remaining : nat) :
  lawful -> operators config <> [] ->
  forall baseOp mixedPool ops w,
    (configured config) baseOp -> Forall (fun op => op ∈ operators config) mixedPool ->
    Forall (configured config) ops ->
    Forall (configured config) (chooseOps config remaining baseOp mixedPool ops w).1.
Proof.
  intros HL Hne. induction remaining as [|remaining IH];
    intros baseOp mixedPool ops w Hb Hp Ho; [assumption|].
  cbn [chooseOps]. destruct (mixedOperations config).
  - destruct (pop mixedPool) as [[pool' nextOp]|] eqn:E.
    + apply pop_snoc in E. subst mixedPool. apply Forall_app in Hp. destruct Hp as [Hp Hx].
      apply Forall_cons in Hx. destruct Hx as [Hx _].
      apply IH; try assumption. apply Forall_app. split; [assumption|].
      constructor; [|constructor]. now exists nextOp.
    + unfold bind. pose proof (randomOperator_configured w HL Hne) as Hr.
      destruct (randomOperator config w) as [nextOp w1]. cbn [fst] in Hr.
      apply IH; try assumption. apply Forall_app. split; [assumption|].
      now constructor.
  - apply IH; try assumption. apply Forall_app. split; [assumption|]. now constructor.
Qed.

Lemma chooseOps_not_mixed (remaining : nat) :
  mixedOperations config = false ->
  forall baseOp mixedPool ops w,
    chooseOps config remaining baseOp mixedPool ops w
    = (ops ++ replicate remaining baseOp, w).
Proof.
  intros Hm. induction remaining as [|remaining IH]; intros baseOp mixedPool ops w.
  - simpl. now rewrite app_nil_r.
  - cbn [chooseOps]. rewrite Hm, IH. now rewrite <- app_assoc.
Qed.

Lemma chooseOps_pool (taken : list Operator) :
  mixedOperations config = true ->
  forall baseOp pre ops w,
    chooseOps config (length taken) baseOp (pre ++ reverse taken) ops w
    = (ops ++ (Some <$> taken), w).
Proof.
  intros Hm. induction taken as [|t taken IH]; intros baseOp pre ops w.
  - simpl. now rewrite app_nil_r.
  - cbn [length chooseOps]. rewrite Hm. rewrite reverse_cons, app_assoc.
    rewrite pop_app_snoc. rewrite IH. rewrite fmap_cons. now rewrite <- app_assoc.
Qed.

Lemma fixDivisions_no_division (rest : list slot) :
  Forall (fun o => o <> Some division) rest ->
  forall i numbers (w : World), fixDivisions rest i numbers w = (numbers, w).
Proof.
  induction rest as [|o rest IH]; intros Hnd i numbers w; [reflexivity|].
  apply Forall_cons in Hnd. destruct Hnd as [Ho Hnd].
  cbn [fixDivisions]. rewrite bool_decide_eq_false_2 by assumption. now apply IH.
Qed.

Lemma swapOperands_permutation (zs : list Z) (ops : list slot) :
  length zs = operandCount config ->
  exists zs', swapOperands config (of_Z <$> zs) ops = of_Z <$> zs' /\ zs' ≡ₚ zs.
Proof.
  intros Hl. unfold swapOperands.
  destruct (negb (allowNegative config) && bool_decide (operandCount config = 2%nat)
            && bool_decide (ops !! 0%nat = Some (Some subtraction))) eqn:C;
    [|exists zs; split; reflexivity].
  apply andb_prop in C. destruct C as [C _].
  apply andb_prop in C. destruct C as [_ C]. apply bool_decide_eq_true in C.
  rewrite C in Hl. destruct zs as [|a [|b [|c zs]]]; try discriminate.
  destruct (read (of_Z <$> [a; b]) 0 <? read (of_Z <$> [a; b]) 1)%num.
  - exists [b; a]. split; [reflexivity | apply Permutation_swap].
  - exists [a; b]. split; reflexivity.
Qed.


Lemma operatorStage_configured (w : World) :
  lawful -> operators config <> [] ->
  Forall (configured config) (operatorStage config w).1.
Proof.
  intros HL Hne. unfold operatorStage, bind.
  pose proof (randomOperator_configured w HL Hne) as Hb.
  destruct (randomOperator config w) as [baseOp w2]. cbn [fst] in Hb.
  destruct HL as [Hr Hs]. pose proof (Hs (operators config) w2) as Hp.
  destruct (sort_random (operators config) w2) as [mixedPool w3]. cbn [fst] in Hp.
  apply chooseOps_configured; try assumption; [now split | | constructor].
  apply Forall_forall. intros op Hop. now rewrite Hp in Hop.
Qed.

Lemma candidate_ops_stage (w : World) :
  (candidate config w).1.2
  = (operatorStage config (sampleNumbers config (operandCount config) [] w).2).1.
Proof.
  rewrite candidate_stages. cbv zeta. now destruct (integerDivisionOnly config).
Qed.

(** X13.  With draws in [0, 1), a [sort] that keeps the elements and at
    least one configured operator, every operator slot of a candidate
    holds one of the configured operators, and there are
    [operandCount - 1] slots. *)
Theorem candidate_operators_configured (w : World) :
  lawful -> operators config <> [] ->
  Forall (configured config) (candidate config w).1.2
  /\ length (candidate config w).1.2 = (operandCount config - 1)%nat.
Proof.
  intros HL Hne. split; [|apply candidate_ops_length].
  rewrite candidate_ops_stage. now apply operatorStage_configured.
Qed.

(** X14.  When operations are not mixed, every slot of a candidate carries
    the same operator: the one drawn at line 85. *)
Theorem candidate_single_operator (w : World) :
  mixedOperations config = false ->
  exists baseOp,
    (candidate config w).1.2 = replicate (operandCount config - 1) baseOp
    /\ baseOp = (randomOperator config
                   (sampleNumbers config (operandCount config) [] w).2).1.
Proof.
  intros Hm. rewrite candidate_ops_stage. unfold operatorStage, bind.
  destruct (randomOperator config _) as [baseOp w2]. exists baseOp.
  destruct (sort_random (operators config) w2) as [mixedPool w3].
  rewrite chooseOps_not_mixed by assumption. split; reflexivity.
Qed.

(** X15.  When operations are mixed, the configured operators are pairwise
    different, there are at least [operandCount - 1] of them and [sort]
    keeps the elements, no operator occurs twice in a candidate: the slots
    are filled from the end of the shuffled pool. *)
Theorem candidate_mixed_distinct (w : World) :
  mixedOperations config = true -> lawful ->
  NoDup (operators config) ->
  (operandCount config - 1 <= length (operators config))%nat ->
  NoDup (candidate config w).1.2
  /\ Forall (configured config) (candidate config w).1.2.
Proof.
  intros Hm HL Hnd Hlen. rewrite candidate_ops_stage. unfold operatorStage, bind.
  destruct (randomOperator config _) as [baseOp w2].
  destruct HL as [_ Hs]. pose proof (Hs (operators config) w2) as Hp.
  destruct (sort_random (operators config) w2) as [mixedPool w3]. cbn [fst] in Hp.
  set (n := (operandCount config - 1)%nat) in *.
  assert (length mixedPool = length (operators config)) as Hl by now rewrite Hp.
  set (taken := reverse (drop (length mixedPool - n) mixedPool)).
  assert (length taken = n) as Ht
    by (unfold taken; rewrite length_reverse, length_drop; lia).
  assert (mixedPool = take (length mixedPool - n) mixedPool ++ reverse taken) as Epool
    by (unfold taken; now rewrite reverse_involutive, take_drop).
  assert ((chooseOps config n baseOp mixedPool [] w3).1 = Some <$> taken) as E.
  { rewrite Epool, <- Ht. now rewrite chooseOps_pool by assumption. }
  cbn [fst]. rewrite E. clear E.
  assert (NoDup mixedPool) as Hndp by now rewrite Hp.
  assert (taken ⊆ mixedPool) as Hsub.
  { intros x Hx. unfold taken in Hx. rewrite elem_of_reverse in Hx.
    now apply (subseteq_drop (length mixedPool - n) mixedPool). }
  split.
  - apply (NoDup_fmap_2 Some). unfold taken. rewrite reverse_Permutation.
    rewrite <- (take_drop (length mixedPool - n) mixedPool) in Hndp.
    now apply NoDup_app in Hndp.
  - apply Forall_forall. intros o Ho. apply list_elem_of_fmap in Ho.
    destruct Ho as (op & -> & Hop). exists op. split; [reflexivity|].
    rewrite <- Hp. now apply Hsub.
Qed.

End Stages.

(** ** The two loops of [generateProblemSet] *)

Section SetLoops.
Context `{RT : Runtime World}.
Variable config : QuizConfig.

Lemma collectUnique_unique (remaining : nat) :
  forall problems seen w,
    NoDup (expression <$> problems) ->
    (forall e, e ∈ seen <-> e ∈ expression <$> problems) ->
    NoDup (expression <$> (collectUnique config remaining problems seen w).1).
Proof.
  induction remaining as [|remaining IH]; intros problems seen w Hnd Hseen; [assumption|].
  cbn [collectUnique]. case_bool_decide; [|assumption].
  unfold bind. destruct (generateSingleProblem config w) as [problem w1].
  case_bool_decide as Hin; [now apply IH|].
  apply IH.
  - rewrite fmap_app. apply NoDup_app. split; [assumption|]. split.
    + intros e He Hp. cbn in Hp. apply list_elem_of_singleton in Hp. subst e.
      apply Hin. now apply Hseen.
    + cbn. apply NoDup_singleton.
  - intros e. rewrite fmap_app, elem_of_app, elem_of_union, elem_of_singleton.
    cbn. rewrite list_elem_of_singleton. rewrite Hseen. tauto.
Qed.

Lemma fillUp_appends (fuel : nat) :
  forall problems w,
    exists filled,
      (fillUp config fuel problems w).1 = problems ++ filled
      /\ (length filled <= fuel)%nat.
Proof.
  induction fuel as [|fuel IH]; intros problems w.
  - exists []. split; [now rewrite app_nil_r | simpl; lia].
  - cbn [fillUp]. case_bool_decide.
    + unfold bind. destruct (generateSingleProblem config w) as [problem w1].
      destruct (IH (problems ++ [problem]) w1) as (filled & E & L).
      exists (problem :: filled). rewrite E, <- app_assoc. split; [reflexivity | simpl; lia].
    + exists []. split; [now rewrite app_nil_r | simpl; lia].
Qed.

(** X16.  A generated set is the list collected by the first loop, in which
    no expression occurs twice, followed by the problems of the second
    loop; when the first loop reaches the quantity asked for, nothing
    follows and the whole set is free of duplicates. *)
Theorem generateProblemSet_unique_prefix (w : World) :
  exists unique filled,
    (generateProblemSet config w).1 = unique ++ filled
    /\ unique = (collectUnique config (quantity config * 50) [] ∅ w).1
    /\ NoDup (expression <$> unique)
    /\ length filled = (quantity config - length unique)%nat
    /\ (length unique = quantity config ->
        NoDup (expression <$> (generateProblemSet config w).1)).
Proof.
  pose proof (collectUnique_unique (quantity config * 50) [] ∅ w) as Hnd.
  pose proof (collectUnique_length config (quantity config * 50) [] ∅ w) as Hle.
  assert (length (generateProblemSet config w).1 = quantity config) as Hlen.
  { unfold generateProblemSet, bind.
    destruct (collectUnique config (quantity config * 50) [] ∅ w) as [problems w1].
    apply fillUp_length; [|lia]. apply Hle. simpl. lia. }
  unfold generateProblemSet, bind in *.
  destruct (collectUnique config (quantity config * 50) [] ∅ w) as [unique w1].
  cbn [fst] in *.
  destruct (fillUp_appends (quantity config - length unique) unique w1) as (filled & E & L).
  exists unique, filled. rewrite E in *.
  assert (NoDup (expression <$> unique)) as Hu.
  { apply Hnd; [apply NoDup_nil_2|]. intros e. cbn. set_solver. }
  rewrite length_app in Hlen.
  split; [reflexivity|]. split; [reflexivity|]. split; [exact Hu|]. split; [lia|].
  intros Hq. destruct filled; [|simpl in *; lia]. now rewrite app_nil_r.
Qed.

End SetLoops.

(** ** The text of an expression *)

Lemma string_app_assoc (s1 s2 s3 : string) : (s1 +:+ s2) +:+ s3 = s1 +:+ s2 +:+ s3.
Proof.
  induction s1 as [|c s1 IH]; [reflexivity|].
  change (String c ((s1 +:+ s2) +:+ s3) = String c (s1 +:+ s2 +:+ s3)).
  now rewrite IH.
Qed.

Lemma string_app_empty_r (s : string) : s +:+ "" = s.
Proof.
  induction s as [|c s IH]; [reflexivity|].
  change (String c (s +:+ "") = String c s). now rewrite IH.
Qed.

Section Rendering.
Context `{RT : Runtime World}.

Lemma Number_toString_of_Z (z : Z) : Number_toString (of_Z z) = pretty z.
Proof.
  unfold Number_toString. change (Fin (inject_Z z)) with (of_Z z).
  rewrite isInteger_of_Z. unfold of_Z. now rewrite Qfloor_Z.
Qed.

Lemma render_loop_cons (n : number) (rest : list number) (i : nat) (ops : list slot)
    (acc : string) :
  render_loop (n :: rest) i ops acc
  = render_loop rest (i + 1) ops
      (if bool_decide (i < length ops)%nat
       then (acc +:+ Number_toString n) +:+ " " +:+ slotSymbol (mjoin (ops !! i)) +:+ " "
       else acc +:+ Number_toString n).
Proof. reflexivity. Qed.

Lemma render_loop_matched (ns : list number) :
  forall n i (pre post : list slot) acc,
    length pre = i -> length ns = length post ->
    render_loop (n :: ns) i (pre ++ post) acc
    = acc +:+ Number_toString n +:+ renderTail (zip post ns).
Proof.
  induction ns as [|m ns IH]; intros n i pre post acc Hi Hl.
  - destruct post; [|discriminate]. rewrite render_loop_cons.
    cbn [render_loop zip zip_with renderTail].
    rewrite app_nil_r, bool_decide_eq_false_2 by lia.
    now rewrite string_app_empty_r.
  - destruct post as [|o post]; [discriminate|]. simpl in Hl.
    rewrite render_loop_cons.
    rewrite bool_decide_eq_true_2 by (rewrite length_app; simpl; lia).
    rewrite list_lookup_middle by (symmetry; assumption). cbn [mjoin option_join].
    replace (pre ++ o :: post) with ((pre ++ [o]) ++ post) by now rewrite <- app_assoc.
    rewrite (IH m (i + 1)%nat (pre ++ [o]) post) by (rewrite ?length_app; simpl; lia).
    cbn [zip zip_with renderTail]. now rewrite !string_app_assoc.
Qed.


End Rendering.


Example render_sample :
  render [of_Z 7; of_Z 3; of_Z 2] [Some multiplication; Some division]
  = "7 × 3 ÷ 2".
Proof. vm_compute. reflexivity. Qed.

(** ** Attempts that are accepted *)

Section Accepted.
Context `{RT : Runtime World}.
Variable config : QuizConfig.

Lemma attempt_accepted (w : World) :
  rejected config
    (evaluateExpressionExtended (candidate config w).1.1 (candidate config w).1.2) = false ->
  exists problem w',
    attempt config w = (Some problem, w')
    /\ generateSingleProblem config w = (problem, w')
    /\ expression problem = render (candidate config w).1.1 (candidate config w).1.2
    /\ correctAnswer problem
       = result (evaluateExpressionExtended (candidate config w).1.1 (candidate config w).1.2)
    /\ userAnswer problem = "" /\ isCorrect problem = None.
Proof.
  intros Hr.
  assert (exists problem w',
             attempt config w = (Some problem, w')
             /\ expression problem = render (candidate config w).1.1 (candidate config w).1.2
             /\ correctAnswer problem
                = result (evaluateExpressionExtended (candidate config w).1.1
                            (candidate config w).1.2)
             /\ userAnswer problem = "" /\ isCorrect problem = None)
    as (problem & w' & Ha & He & Hc & Hu & Hi).
  { unfold attempt, bind. destruct (candidate config w) as [c w1]. cbn [fst snd] in *.
    rewrite Hr. destruct (Math_random w1) as [r w2]. destruct (Date_now w2) as [now w3].
    eexists _, _. split; [reflexivity|]. repeat split. }
  exists problem, w'. repeat split; try assumption.
  unfold generateSingleProblem. change 200%nat with (S 199). cbn [attemptLoop].
  unfold bind. now rewrite Ha.
Qed.

(** X18.  When negative values are allowed and integer division is not
    required, no attempt is rejected: [generateSingleProblem] returns the
    problem of its first attempt, never the fallback, with an empty user
    answer and no correctness flag. *)
Theorem unconstrained_first_attempt (w : World) :
  allowNegative config = true -> integerDivisionOnly config = false ->
  exists problem w',
    attempt config w = (Some problem, w')
    /\ generateSingleProblem config w = (problem, w')
    /\ expression problem = render (candidate config w).1.1 (candidate config w).1.2
    /\ correctAnswer problem
       = result (evaluateExpressionExtended (candidate config w).1.1 (candidate config w).1.2)
    /\ userAnswer problem = "" /\ isCorrect problem = None.
Proof.
  intros Hneg Hint. apply attempt_accepted. unfold rejected. now rewrite Hneg, Hint.
Qed.

End Accepted.

(** ** Two operands and a single operator *)

Lemma ltb_of_Z (x y : Z) : (of_Z x <? of_Z y)%num = (x <? y)%Z.
Proof.
  cbn [Num.ltb of_Z]. destruct (Qle_bool (inject_Z y) (inject_Z x)) eqn:E; reflect_Q.
  - rewrite <- Zle_Qle in E. symmetry. apply Z.ltb_ge. exact E.
  - rewrite <- Zlt_Qlt in E. symmetry. apply Z.ltb_lt. exact E.
Qed.

Lemma evaluate_subtraction (a b : Z) :
  evaluateExpressionExtended [of_Z a; of_Z b] [Some subtraction]
  = {| result := of_Z (a - b);
       hasNegativeIntermediate := (a - b <? 0)%Z || (a <? 0)%Z |}.
Proof.
  unfold evaluateExpressionExtended.
  rewrite evaluatePasses_matched by reflexivity.
  cbn [zip zip_with collapse as_fold is_md fst snd as_apply].
  rewrite sub_of_Z, round2_of_Z, !ltb_of_Z.
  now destruct (a - b <? 0)%Z, (a <? 0)%Z.
Qed.

Lemma evaluate_exact_division (b m : Z) :
  b <> 0%Z ->
  evaluateExpressionExtended [of_Z (b * m); of_Z b] [Some division]
  = {| result := of_Z m; hasNegativeIntermediate := (m <? 0)%Z |}.
Proof.
  intros Hb. unfold evaluateExpressionExtended.
  rewrite evaluatePasses_matched by reflexivity.
  cbn [zip zip_with collapse as_fold is_md fst snd].
  rewrite md_reduce_division_exact by assumption.
  rewrite round2_of_Z, ltb_of_Z. now destruct (m <? 0)%Z.
Qed.

Section SingleOperator.
Context `{RT : Runtime World}.
Variable config : QuizConfig.

Lemma single_operator_slots (op : Operator) (w : World) :
  lawful -> operators config = [op] ->
  (candidate config w).1.2 = replicate (operandCount config - 1) (Some op).
Proof.
  intros HL Hop.
  destruct (candidate_operators_configured config w HL) as [Hc Hl];
    [rewrite Hop; discriminate|].
  symmetry. apply replicate_as_Forall. split; [exact Hl|].
  eapply Forall_impl; [exact Hc|]. intros o (op' & -> & Hin).
  rewrite Hop in Hin. apply list_elem_of_singleton in Hin. now subst.
Qed.



End SingleOperator.

(** ** The divisors of a candidate *)

Section Divisors.
Context `{RT : Runtime World}.
Variable config : QuizConfig.

Lemma fixChain_nonzero (rest : list (slot * Z)) :
  lawful ->
  forall cur w,
    (cur <> 0%Z -> exists y tl, (fixChain cur rest w).1 = y :: tl /\ y <> 0%Z)
    /\ (forall i, rest.*1 !! i = Some (Some division) ->
                  exists y, (fixChain cur rest w).1 !! S i = Some y /\ y <> 0%Z).
Proof.
  intros HL. induction rest as [|[op b] rest IH]; intros cur w.
  - split.
    + intros Hc. exists cur, []. now split.
    + intros i Hi. rewrite fmap_nil, lookup_nil in Hi. discriminate.
  - cbn [fixChain]. case_bool_decide as Hop; unfold bind.
    + pose proof (drawBelow_range HL 10 w ltac:(lia)) as Hk.
      destruct (drawBelow 10 w) as [k w1]. cbn [fst] in Hk.
      set (b' := if bool_decide (b = 0%Z) then 1%Z else b).
      assert (b' <> 0%Z) as Hb' by (subst b'; case_bool_decide; lia).
      destruct (IH b' w1) as [IHh IHt].
      destruct (IHh Hb') as (y & tl & E & Hy).
      destruct (fixChain b' rest w1) as [ys w2]. cbn [fst ret] in *. subst ys.
      split.
      * intros _. exists (b' * (k + 1))%Z, (y :: tl). split; [reflexivity | nia].
      * intros [|i] Hi.
        -- exists y. now split.
        -- rewrite fmap_cons in Hi. cbn [lookup list_lookup] in Hi.
           destruct (IHt i Hi) as (y' & Ey' & Hy'). exists y'. now split.
    + destruct (IH b w) as [_ IHt].
      destruct (fixChain b rest w) as [ys w2]. cbn [fst ret] in *.
      split.
      * intros Hc. exists cur, ys. now split.
      * intros [|i] Hi.
        -- rewrite fmap_cons in Hi. cbn in Hi. congruence.
        -- rewrite fmap_cons in Hi. cbn [lookup list_lookup] in Hi.
           destruct (IHt i Hi) as (y' & Ey' & Hy'). exists y'. now split.
Qed.


End Divisors.

(** ** The properties on the cycling runtime *)


Lemma candidate_operators_configured_witness :
  Forall (configured Samples.fewDifferences)
    (candidate (RT := Cycle.runtime) Samples.fewDifferences 3%nat).1.2
  /\ length (candidate (RT := Cycle.runtime) Samples.fewDifferences 3%nat).1.2
     = (operandCount Samples.fewDifferences - 1)%nat.
Proof.
  apply (candidate_operators_configured (RT := Cycle.runtime) Samples.fewDifferences 3%nat).
  - exact cycle_lawful.
  - discriminate.
Defined.

Lemma candidate_single_operator_witness :
  exists baseOp,
    (candidate (RT := Cycle.runtime) Samples.divisionChain 0%nat).1.2
    = replicate (operandCount Samples.divisionChain - 1) baseOp
    /\ baseOp = (randomOperator (RT := Cycle.runtime) Samples.divisionChain
                   (sampleNumbers (RT := Cycle.runtime) Samples.divisionChain
                      (operandCount Samples.divisionChain) [] 0%nat).2).1.
Proof.
  apply (candidate_single_operator (RT := Cycle.runtime) Samples.divisionChain 0%nat).
  reflexivity.
Defined.

Lemma candidate_mixed_distinct_witness :
  NoDup (candidate (RT := Cycle.runtime) Samples2.mixedThree 0%nat).1.2
  /\ Forall (configured Samples2.mixedThree)
       (candidate (RT := Cycle.runtime) Samples2.mixedThree 0%nat).1.2.
Proof.
  apply (candidate_mixed_distinct (RT := Cycle.runtime) Samples2.mixedThree 0%nat).
  - reflexivity.
  - exact cycle_lawful.
  - apply (bool_decide_eq_true_1 (NoDup [addition; multiplication; division])).
    vm_compute. reflexivity.
  - simpl. lia.
Defined.

Lemma unconstrained_first_attempt_witness :
  exists problem w',
    attempt (RT := Cycle.runtime) Samples2.unconstrained 0%nat = (Some problem, w')
    /\ generateSingleProblem (RT := Cycle.runtime) Samples2.unconstrained 0%nat = (problem, w')
    /\ expression problem
       = render (H := Cycle.runtime)
           (candidate (RT := Cycle.runtime) Samples2.unconstrained 0%nat).1.1
           (candidate (RT := Cycle.runtime) Samples2.unconstrained 0%nat).1.2
    /\ correctAnswer problem
       = result (evaluateExpressionExtended
                   (candidate (RT := Cycle.runtime) Samples2.unconstrained 0%nat).1.1
                   (candidate (RT := Cycle.runtime) Samples2.unconstrained 0%nat).1.2)
    /\ userAnswer problem = "" /\ isCorrect problem = None.
Proof.
  apply (unconstrained_first_attempt (RT := Cycle.runtime) Samples2.unconstrained 0%nat);
    reflexivity.
Defined.




Example cycle_two_operand_subtraction :
  (generateSingleProblem (RT := Cycle.runtime) Samples.fewDifferences 3%nat).1
  = {| id := "cycle0000"; expression := "5 - 4"; correctAnswer := of_Z 1;
       userAnswer := ""; isCorrect := None; timestamp := 7 |}.
Proof. vm_compute. reflexivity. Qed.
